(** * Code RAG web client: a shallow embedding and its properties

    The development follows the layout of the repository:

    - [Js]            the string primitives the client relies on
                      ([split], [startsWith], [slice], [length]);
    - [ChatContext]   contexts/ChatContext.jsx (conversation store);
    - [Sse]           the line handling shared by the three stream readers;
    - [AgentChat]     hooks/useAgentChat.js ([runAgent]);
    - [StreamingChat] hooks/useStreamingChat.js ([sendMessage]);
    - [Training]      pages/TrainingPage.jsx ([startIndexing]);
    - [Client]        api/client.js and pages/ChatPage.jsx (request gate);
    - [Backend]       the Python services the client talks to.

    A JavaScript string is a sequence of UTF-16 code units; it is modelled
    by [string], one [ascii] standing for one code unit.  [null] and
    [undefined] are modelled by [None]. *)

From Stdlib Require Import QArith Qminmax Lqa.
From Stdlib Require Import Strings.String Strings.Ascii.
From Stdlib Require Import DecimalString.
From stdpp Require Import base option list strings gmap.

Local Open Scope string_scope.
Local Open Scope list_scope.

(** ** JavaScript string primitives *)

Module Js.

(** The code unit U+000A. *)
Definition nl : ascii := ascii_of_nat 10.

(** [s.split('\n')]: never empty, [''.split('\n')] is [['']]. *)
Fixpoint split_nl (s : string) : list string :=
  match s with
  | EmptyString => [EmptyString]
  | String c r =>
      if Ascii.eqb c nl then EmptyString :: split_nl r
      else match split_nl r with
           | h :: t => String c h :: t
           | [] => [String c EmptyString]
           end
  end.

(** [s.startsWith(p)]. *)
Definition startsWith (p s : string) : bool := String.prefix p s.

(** [s.slice(n)] for [0 <= n]. *)
Fixpoint slice_from (n : nat) (s : string) : string :=
  match n, s with
  | O, _ => s
  | S _, EmptyString => EmptyString
  | S n', String _ r => slice_from n' r
  end.

(** [s.slice(0, n)] for [0 <= n]. *)
Fixpoint slice_to (n : nat) (s : string) : string :=
  match n, s with
  | O, _ => EmptyString
  | S _, EmptyString => EmptyString
  | S n', String c r => String c (slice_to n' r)
  end.

(** Truthiness of a value that is [null] or a string. *)
Definition truthy (v : option string) : bool :=
  match v with
  | None => false
  | Some s => negb (String.eqb s EmptyString)
  end.

(** [a || b] on values that are [null] or a string. *)
Definition or_else (a b : option string) : option string :=
  if truthy a then a else b.

(** [arr.pop()]: the last element (or [undefined]) and the shortened array. *)
Definition pop {A} (l : list A) : option A * list A :=
  (last l, removelast l).

(** *** Facts on the primitives *)

Lemma app_cons c (a b : string) : String c a +:+ b = String c (a +:+ b).
Proof. reflexivity. Qed.

Lemma app_nil_r (s : string) : s +:+ "" = s.
Proof. induction s as [|c s IH]; [done | by rewrite app_cons, IH]. Qed.

Lemma app_assoc (a b c : string) : (a +:+ b) +:+ c = a +:+ (b +:+ c).
Proof. induction a as [|x a IH]; [done | by rewrite !app_cons, IH]. Qed.

Lemma app_length (a b : string) :
  String.length (a +:+ b) = String.length a + String.length b.
Proof. induction a as [|c a IH]; [done | rewrite app_cons; simpl; by rewrite IH]. Qed.

Lemma slice_to_length n s :
  n <= String.length s -> String.length (slice_to n s) = n.
Proof.
  revert s. induction n as [|n IH]; intros [|c r] H; simpl in *; try lia.
  rewrite IH; lia.
Qed.

Lemma slice_to_short n s :
  String.length s <= n -> slice_to n s = s.
Proof.
  revert s. induction n as [|n IH]; intros [|c r] H; simpl in *; try done; try lia.
  rewrite IH; [done | lia].
Qed.

Lemma slice_to_bound n s : String.length (slice_to n s) <= n.
Proof.
  revert s. induction n as [|n IH]; intros [|c r]; simpl; try lia.
  specialize (IH r). lia.
Qed.

Lemma truthy_Some s : truthy (Some s) = true <-> s ≠ "".
Proof.
  simpl. rewrite negb_true_iff. split.
  - intros H ->. by rewrite String.eqb_refl in H.
  - intros H. by apply String.eqb_neq.
Qed.

Lemma split_nl_nonempty s : split_nl s ≠ [].
Proof.
  destruct s as [|c r]; simpl; [done |].
  destruct (Ascii.eqb c nl); [done |].
  by destruct (split_nl r).
Qed.

(** Cutting a concatenation: the complete lines of the first part stay,
    its unfinished last line is continued by the second part. *)
Lemma split_nl_app (a b : string) :
  split_nl (a +:+ b) =
    removelast (split_nl a)
      ++ split_nl (default "" (last (split_nl a)) +:+ b).
Proof.
  induction a as [|c r IH]; [done |].
  rewrite app_cons. simpl.
  pose proof (split_nl_nonempty r) as Hne.
  destruct (Ascii.eqb c nl) eqn:Ec.
  - destruct (split_nl r) as [|h t] eqn:Er; [done |].
    rewrite IH. done.
  - destruct (split_nl r) as [|h t] eqn:Er; [done |].
    rewrite IH. destruct t as [|h' t'].
    + simpl. by rewrite Ec.
    + done.
Qed.

Lemma split_nl_one s h : split_nl s = [h] -> h = s.
Proof.
  revert h. induction s as [|c r IH]; intros h; simpl; [congruence |].
  pose proof (split_nl_nonempty r) as Hne.
  destruct (Ascii.eqb c nl).
  - destruct (split_nl r); [done | discriminate].
  - destruct (split_nl r) as [|x [|y t]] eqn:Er; [done | | discriminate].
    intros [= <-]. by rewrite (IH x).
Qed.

(** No line of a text holds U+000A. *)
Lemma split_nl_clean s h : h ∈ split_nl s -> split_nl h = [h].
Proof.
  revert h. induction s as [|c r IH]; intros h; simpl.
  - intros ->%list_elem_of_singleton. done.
  - pose proof (split_nl_nonempty r) as Hne.
    destruct (Ascii.eqb c nl) eqn:Ec.
    + intros [-> | Hin]%elem_of_cons; [done | by apply IH].
    + destruct (split_nl r) as [|x t] eqn:Er; [done |].
      intros [-> | Hin]%elem_of_cons.
      * simpl. rewrite Ec. rewrite (IH x) by left. done.
      * apply IH. by right.
Qed.

(** A text that ends a line and goes on without another U+000A: its
    lines are those of the part before, then the rest. *)
Lemma split_nl_tail t tail :
  split_nl tail = [tail] ->
  split_nl (t +:+ String nl tail) = split_nl t ++ [tail].
Proof.
  intros Htail. induction t as [|c r IH].
  - change ("" +:+ String nl tail) with (String nl tail). simpl.
    by rewrite Htail.
  - rewrite app_cons. simpl. rewrite IH.
    pose proof (split_nl_nonempty r) as Hne.
    destruct (Ascii.eqb c nl); [done |].
    by destruct (split_nl r).
Qed.

(** A line without U+000A, then U+000A, then more text. *)
Lemma split_nl_tail_line s t :
  split_nl s = [s] -> split_nl (s +:+ String nl t) = s :: split_nl t.
Proof.
  induction s as [|c r IH]; [done |].
  rewrite app_cons. simpl.
  pose proof (split_nl_nonempty r) as Hne.
  destruct (Ascii.eqb c nl).
  - destruct (split_nl r); [done | discriminate].
  - destruct (split_nl r) as [|x [|y t']] eqn:Er; [done | | discriminate].
    intros _. pose proof (split_nl_one _ _ Er) as ->.
    by rewrite IH.
Qed.

End Js.

(** ** contexts/ChatContext.jsx *)

Module ChatContext.

Record message := {
  role : string;
  content : string;
  sources : option (list string);
}.

Record conversation := {
  id : string;
  title : string;
  messages : list message;
  createdAt : string;
}.

(** The two pieces of React state held by [ChatProvider]. *)
Record state := {
  conversationsByProject : gmap string (list conversation);
  currentConversationId : option string;
}.

(** [prev[selectedProjectId] || []]. *)
Definition conversations_of (m : gmap string (list conversation)) (p : string)
  : list conversation :=
  default [] (m !! p).

(** [{ ...conv, title: trimmed }]. *)
Definition with_title (t : string) (conv : conversation) : conversation :=
  {| id := id conv; title := t; messages := messages conv;
     createdAt := createdAt conv |}.

(** [title.length > 30 ? title.slice(0, 30) + '...' : title]. *)
Definition trim_title (t : string) : string :=
  if (30 <? String.length t)%nat then Js.slice_to 30 t +:+ "..." else t.

Definition retitle (target t : string) (conv : conversation) : conversation :=
  if String.eqb (id conv) target then with_title t conv else conv.

Definition updateConversationTitle
    (selectedProjectId : option string)
    (t : string) (conversationId : option string) (st : state) : state :=
  let targetConvId := Js.or_else conversationId (currentConversationId st) in
  match selectedProjectId, targetConvId with
  | Some sel, Some target =>
      if Js.truthy selectedProjectId && Js.truthy targetConvId then
        let trimmed := trim_title t in
        {| conversationsByProject :=
             <[sel := retitle target trimmed
                        <$> conversations_of (conversationsByProject st) sel]>
               (conversationsByProject st);
           currentConversationId := currentConversationId st |}
      else st
  | _, _ => st
  end.

Definition deleteConversation
    (selectedProjectId : option string)
    (conversationId : string) (st : state) : state :=
  match selectedProjectId with
  | Some sel =>
      if Js.truthy selectedProjectId then
        {| conversationsByProject :=
             <[sel := filter (fun c => id c ≠ conversationId)
                        (conversations_of (conversationsByProject st) sel)]>
               (conversationsByProject st);
           currentConversationId :=
             if decide (currentConversationId st = Some conversationId)
             then None else currentConversationId st |}
      else st
  | None => st
  end.

Lemma trim_title_short t : String.length t <= 30 -> trim_title t = t.
Proof.
  intros H. unfold trim_title.
  destruct (30 <? String.length t)%nat eqn:E; [apply Nat.ltb_lt in E; lia | done].
Qed.

Lemma trim_title_long t :
  30 < String.length t ->
  trim_title t = Js.slice_to 30 t +:+ "..." /\ String.length (trim_title t) = 33.
Proof.
  intros H. unfold trim_title.
  destruct (30 <? String.length t)%nat eqn:E; [| apply Nat.ltb_ge in E; lia].
  split; [done |]. rewrite Js.app_length, Js.slice_to_length by lia. done.
Qed.

Lemma conversations_of_insert m (p : string) (l : list conversation) :
  conversations_of (<[p := l]> m) p = l.
Proof. unfold conversations_of. by rewrite lookup_insert_eq. Qed.

Lemma updateConversationTitle_unselected sel t cid st :
  Js.truthy sel = false -> updateConversationTitle sel t cid st = st.
Proof.
  intros H. unfold updateConversationTitle.
  destruct sel as [p|]; [| done].
  destruct (Js.or_else cid (currentConversationId st)); [| done].
  by rewrite H.
Qed.

Lemma updateConversationTitle_unresolved sel t cid st :
  Js.truthy (Js.or_else cid (currentConversationId st)) = false ->
  updateConversationTitle sel t cid st = st.
Proof.
  intros H. unfold updateConversationTitle.
  destruct sel as [p|]; [| done].
  destruct (Js.or_else cid (currentConversationId st)); [| done].
  by rewrite H, andb_false_r.
Qed.

Lemma deleteConversation_unselected sel cid st :
  Js.truthy sel = false -> deleteConversation sel cid st = st.
Proof.
  intros H. unfold deleteConversation. destruct sel; [by rewrite H | done].
Qed.

(** *** Properties of the store *)

(** C10.  [updateConversationTitle] keeps a title of at most 30 code units
    as it is and otherwise stores its first 30 code units followed by
    three dots, 33 code units in all.  In the selected project the
    conversations whose id is the target get that title and keep every
    other field; all other conversations, the lists of the other projects
    and the current conversation id are unchanged.  When no project is
    selected, or neither the argument nor the current conversation id
    gives a target, the state is unchanged. *)
Theorem updateConversationTitle_effect :
  (forall sel t cid st,
      Js.truthy sel = false \/
      Js.truthy (Js.or_else cid (currentConversationId st)) = false ->
      updateConversationTitle sel t cid st = st) /\
  (forall sel target t cid st,
      Js.truthy (Some sel) = true ->
      Js.or_else cid (currentConversationId st) = Some target ->
      Js.truthy (Some target) = true ->
      let st' := updateConversationTitle (Some sel) t cid st in
      let stored :=
        if decide (String.length t <= 30) then t
        else Js.slice_to 30 t +:+ "..." in
      (30 < String.length t -> String.length stored = 33) /\
      conversations_of (conversationsByProject st') sel =
        (fun c => if decide (id c = target)
                  then {| id := id c; title := stored;
                          messages := messages c; createdAt := createdAt c |}
                  else c)
          <$> conversations_of (conversationsByProject st) sel /\
      (forall p, p ≠ sel ->
         conversationsByProject st' !! p = conversationsByProject st !! p) /\
      currentConversationId st' = currentConversationId st).
Proof.
  split.
  - intros sel t cid st [H|H].
    + by apply updateConversationTitle_unselected.
    + by apply updateConversationTitle_unresolved.
  - intros sel target t cid st Hsel Htgt Htruthy st' stored.
    assert (Hst : stored = trim_title t).
    { unfold stored, trim_title. case_decide as Hlen.
      - destruct (30 <? String.length t)%nat eqn:E; [| done].
        apply Nat.ltb_lt in E. lia.
      - destruct (30 <? String.length t)%nat eqn:E; [done |].
        apply Nat.ltb_ge in E. lia. }
    assert (Hrun : st' =
      {| conversationsByProject :=
           <[sel := retitle target (trim_title t)
                      <$> conversations_of (conversationsByProject st) sel]>
             (conversationsByProject st);
         currentConversationId := currentConversationId st |}).
    { unfold st', updateConversationTitle. rewrite Htgt, Hsel, Htruthy. done. }
    split; [| split; [| split]].
    + intros Hlong. rewrite Hst. by apply trim_title_long.
    + rewrite Hrun. simpl. rewrite conversations_of_insert, Hst.
      apply list_fmap_ext. intros i c _. unfold retitle, with_title.
      case_decide as Hid.
      * apply String.eqb_eq in Hid. by rewrite Hid.
      * apply String.eqb_neq in Hid. by rewrite Hid.
    + intros p Hp. rewrite Hrun. simpl. by rewrite lookup_insert_ne.
    + by rewrite Hrun.
Qed.

(** C9.  With a project selected, [deleteConversation] keeps in that
    project's list exactly the conversations whose id differs from the
    given one, in their order; the lists of all other projects are
    unchanged; the current conversation id becomes [null] when it is the
    deleted id and is unchanged otherwise. *)
Theorem deleteConversation_frame sel cid st :
  Js.truthy (Some sel) = true ->
  let st' := deleteConversation (Some sel) cid st in
  conversations_of (conversationsByProject st') sel =
    filter (fun c => id c ≠ cid)
      (conversations_of (conversationsByProject st) sel) /\
  (forall c, c ∈ conversations_of (conversationsByProject st') sel <->
             c ∈ conversations_of (conversationsByProject st) sel /\
             id c ≠ cid) /\
  (forall p, p ≠ sel ->
     conversationsByProject st' !! p = conversationsByProject st !! p) /\
  (currentConversationId st = Some cid -> currentConversationId st' = None) /\
  (currentConversationId st ≠ Some cid ->
     currentConversationId st' = currentConversationId st).
Proof.
  intros Hsel st'.
  assert (Hrun : st' =
    {| conversationsByProject :=
         <[sel := filter (fun c => id c ≠ cid)
                    (conversations_of (conversationsByProject st) sel)]>
           (conversationsByProject st);
       currentConversationId :=
         if decide (currentConversationId st = Some cid)
         then None else currentConversationId st |}).
  { unfold st', deleteConversation. by rewrite Hsel. }
  rewrite Hrun. simpl. rewrite conversations_of_insert.
  split; [done |]. split; [| split; [| split]].
  - intros c. rewrite list_elem_of_filter. tauto.
  - intros p Hp. by rewrite lookup_insert_ne.
  - intros Hcur. by rewrite decide_True.
  - intros Hcur. by rewrite decide_False.
Qed.

(** A store with one project and two conversations, used to run the
    operations on concrete data. *)
Definition conv_a : conversation :=
  {| id := "1700000000001"; title := "first"; messages := [];
     createdAt := "2024-01-01T00:00:00.000Z" |}.

Definition conv_b : conversation :=
  {| id := "1700000000002"; title := "second"; messages := [];
     createdAt := "2024-01-02T00:00:00.000Z" |}.

Definition sample_state : state :=
  {| conversationsByProject := {[ "proj" := [conv_a; conv_b] ]};
     currentConversationId := Some "1700000000001" |}.

Definition long_title : string := "how does the login handler validate tokens".

Lemma deleteConversation_frame_witness :
  Js.truthy (Some "proj") = true /\
  conversations_of
    (conversationsByProject
       (deleteConversation (Some "proj") "1700000000001" sample_state))
    "proj" = [conv_b] /\
  currentConversationId
    (deleteConversation (Some "proj") "1700000000001" sample_state) = None.
Proof.
  split; [reflexivity |].
  destruct (deleteConversation_frame "proj" "1700000000001" sample_state
              eq_refl) as (Hlist & _ & _ & Hcur & _).
  split.
  - rewrite Hlist. vm_compute. reflexivity.
  - apply Hcur. reflexivity.
Defined.

Lemma updateConversationTitle_effect_witness :
  Js.truthy (Some "proj") = true /\
  Js.or_else None (currentConversationId sample_state)
    = Some "1700000000001" /\
  Js.truthy (Some "1700000000001") = true /\
  title <$> conversations_of
    (conversationsByProject
       (updateConversationTitle (Some "proj") long_title None sample_state))
    "proj" = ["how does the login handler val..."; "second"].
Proof.
  split; [reflexivity |]. split; [reflexivity |]. split; [reflexivity |].
  destruct (proj2 updateConversationTitle_effect "proj" "1700000000001"
              long_title None sample_state eq_refl eq_refl eq_refl)
    as (_ & Hlist & _).
  rewrite Hlist. vm_compute. reflexivity.
Defined.

(** *** The other operations of the provider *)

(** [obj[key]] where [key] is [null] or a string: [null] is turned into
    the property name [null]. *)
Definition property_key (key : option string) : string := default "null" key.

(** [conversationsByProject[selectedProjectId] || []]. *)
Definition conversations (selectedProjectId : option string) (st : state)
  : list conversation :=
  conversations_of (conversationsByProject st) (property_key selectedProjectId).

(** [conversations.find(c => c.id === currentConversationId) || null]. *)
Definition currentConversation (selectedProjectId : option string) (st : state)
  : option conversation :=
  match currentConversationId st with
  | Some cur =>
      List.find (fun c => String.eqb (id c) cur)
        (conversations selectedProjectId st)
  | None => None
  end.

(** [createConversation]; [now] is [Date.now().toString()] and [iso] is
    [new Date().toISOString()] at the time of the call. *)
Definition createConversation (selectedProjectId : option string)
    (now iso : string) (st : state) : option conversation * state :=
  match selectedProjectId with
  | Some sel =>
      if Js.truthy selectedProjectId then
        let newConv :=
          {| id := now; title := "新对话"; messages := [];
             createdAt := iso |} in
        (Some newConv,
         {| conversationsByProject :=
              <[sel := newConv
                         :: conversations_of (conversationsByProject st) sel]>
                (conversationsByProject st);
            currentConversationId := Some (id newConv) |})
      else (None, st)
  | None => (None, st)
  end.

(** [{ ...conv, messages: [...conv.messages, message] }]. *)
Definition with_message (m : message) (conv : conversation) : conversation :=
  {| id := id conv; title := title conv; messages := messages conv ++ [m];
     createdAt := createdAt conv |}.

Definition append_to (target : string) (m : message) (conv : conversation)
  : conversation :=
  if String.eqb (id conv) target then with_message m conv else conv.

Definition addMessage (selectedProjectId : option string)
    (m : message) (conversationId : option string) (st : state) : state :=
  let targetConvId := Js.or_else conversationId (currentConversationId st) in
  match selectedProjectId, targetConvId with
  | Some sel, Some target =>
      if Js.truthy selectedProjectId && Js.truthy targetConvId then
        {| conversationsByProject :=
             <[sel := append_to target m
                        <$> conversations_of (conversationsByProject st) sel]>
               (conversationsByProject st);
           currentConversationId := currentConversationId st |}
      else st
  | _, _ => st
  end.

Lemma conversations_of_insert_ne m (p q : string) (l : list conversation) :
  p ≠ q -> conversations_of (<[p := l]> m) q = conversations_of m q.
Proof. intros H. unfold conversations_of. by rewrite lookup_insert_ne. Qed.

Lemma find_filter_other (cur cid : string) (l : list conversation) :
  cur ≠ cid ->
  List.find (fun c => String.eqb (id c) cur)
    (filter (fun c => id c ≠ cid) l) =
  List.find (fun c => String.eqb (id c) cur) l.
Proof.
  intros Hne. induction l as [|c l IH]; [done |].
  rewrite filter_cons. simpl. case_decide as Hc; simpl.
  - by rewrite IH.
  - rewrite IH.
    destruct (String.eqb (id c) cur) eqn:E; [| done].
    apply String.eqb_eq in E. congruence.
Qed.

Lemma find_filter_same (cid : string) (l : list conversation) :
  List.find (fun c => String.eqb (id c) cid)
    (filter (fun c => id c ≠ cid) l) = None.
Proof.
  induction l as [|c l IH]; [done |].
  rewrite filter_cons. case_decide as Hc; simpl; [| done].
  apply String.eqb_neq in Hc. by rewrite Hc.
Qed.

Lemma filter_fresh (cid : string) (l : list conversation) :
  (forall c, c ∈ l -> id c ≠ cid) ->
  filter (fun c => id c ≠ cid) l = l.
Proof.
  intros H. induction l as [|c l IH]; [done |].
  rewrite filter_cons, decide_True by (apply H; left).
  f_equal. apply IH. intros c' Hc'. apply H. by right.
Qed.

Lemma slice_to_app_exact (a b : string) :
  Js.slice_to (String.length a) (a +:+ b) = a.
Proof.
  induction a as [|c a IH]; [by destruct b |].
  rewrite Js.app_cons. simpl. by rewrite IH.
Qed.

Lemma trim_title_bound t : String.length (trim_title t) <= 33.
Proof.
  destruct (decide (String.length t <= 30)) as [H|H].
  - rewrite trim_title_short by done. lia.
  - destruct (trim_title_long t) as [_ Hl]; lia.
Qed.

Lemma trim_title_idem t : trim_title (trim_title t) = trim_title t.
Proof.
  destruct (decide (String.length t <= 30)) as [H|H].
  - rewrite (trim_title_short t H). by apply trim_title_short.
  - destruct (trim_title_long t) as [Heq Hlen]; [lia |].
    destruct (trim_title_long (trim_title t)) as [Heq' _]; [lia |].
    rewrite Heq'. rewrite Heq at 1.
    pose proof (slice_to_app_exact (Js.slice_to 30 t) "...") as Hs.
    rewrite Js.slice_to_length in Hs by lia. by rewrite Hs.
Qed.

Lemma fmap_fixed (f : conversation -> conversation) (l : list conversation) :
  (forall c, c ∈ l -> f c = c) -> f <$> l = l.
Proof.
  intros H. induction l as [|c l IH]; [done |].
  rewrite fmap_cons, H by left. f_equal. apply IH.
  intros c' Hc'. apply H. by right.
Qed.

Lemma filter_id_comm (a b : string) (l : list conversation) :
  filter (fun c => id c ≠ a) (filter (fun c => id c ≠ b) l) =
  filter (fun c => id c ≠ b) (filter (fun c => id c ≠ a) l).
Proof.
  induction l as [|c l IH]; [done |].
  rewrite !filter_cons.
  destruct (decide (id c ≠ a)) as [Ha|Ha], (decide (id c ≠ b)) as [Hb|Hb];
    rewrite ?filter_cons, ?decide_True, ?decide_False by done;
    by rewrite IH.
Qed.

Lemma conversations_Some sel st :
  conversations (Some sel) st = conversations_of (conversationsByProject st) sel.
Proof. reflexivity. Qed.

Lemma updateConversationTitle_run sel target t cid st :
  Js.truthy (Some sel) = true ->
  Js.or_else cid (currentConversationId st) = Some target ->
  Js.truthy (Some target) = true ->
  updateConversationTitle (Some sel) t cid st =
    {| conversationsByProject :=
         <[sel := retitle target (trim_title t)
                    <$> conversations_of (conversationsByProject st) sel]>
           (conversationsByProject st);
       currentConversationId := currentConversationId st |}.
Proof.
  intros Hs Ht Htr. unfold updateConversationTitle. by rewrite Ht, Hs, Htr.
Qed.

Lemma deleteConversation_run sel cid st :
  Js.truthy (Some sel) = true ->
  deleteConversation (Some sel) cid st =
    {| conversationsByProject :=
         <[sel := filter (fun c => id c ≠ cid)
                    (conversations_of (conversationsByProject st) sel)]>
           (conversationsByProject st);
       currentConversationId :=
         if decide (currentConversationId st = Some cid)
         then None else currentConversationId st |}.
Proof. intros H. unfold deleteConversation. by rewrite H. Qed.

(** X1.  With a project selected, [createConversation] returns a new
    conversation with the given id, no messages and the default title,
    puts it in front of the project's conversations, which keep their
    order, leaves the other projects alone and makes it the current
    conversation: looking the current id up again finds the new
    conversation even when an older one carries the same id.  Without a
    project it returns [null] and changes nothing. *)
Theorem createConversation_becomes_current :
  (forall sel now iso st,
     Js.truthy sel = false ->
     createConversation sel now iso st = (None, st)) /\
  (forall sel now iso st,
     Js.truthy (Some sel) = true ->
     let newConv := {| id := now; title := "新对话"; messages := [];
                       createdAt := iso |} in
     let st' := (createConversation (Some sel) now iso st).2 in
     (createConversation (Some sel) now iso st).1 = Some newConv /\
     conversations (Some sel) st' = newConv :: conversations (Some sel) st /\
     (forall p, p ≠ sel ->
        conversationsByProject st' !! p = conversationsByProject st !! p) /\
     currentConversationId st' = Some now /\
     currentConversation (Some sel) st' = Some newConv).
Proof.
  split.
  - intros sel now iso st H. unfold createConversation.
    destruct sel; [by rewrite H | done].
  - intros sel now iso st H newConv st'.
    unfold st', createConversation. rewrite H. simpl.
    split; [done |]. split.
    { rewrite !conversations_Some. simpl. by rewrite conversations_of_insert. }
    split; [intros p Hp; by rewrite lookup_insert_ne |].
    split; [done |].
    unfold currentConversation. simpl.
    rewrite conversations_Some. simpl. rewrite conversations_of_insert.
    simpl. by rewrite String.eqb_refl.
Qed.

(** X2.  With a project selected and a target resolved, [addMessage] puts
    the message at the end of the messages of the conversations that
    carry the target id and changes nothing else: every conversation
    keeps its id, title, creation time and place in the list, other
    conversations keep their messages, and the other projects and the
    current conversation id are unchanged. *)
Theorem addMessage_appends sel target m cid st :
  Js.truthy (Some sel) = true ->
  Js.or_else cid (currentConversationId st) = Some target ->
  Js.truthy (Some target) = true ->
  let st' := addMessage (Some sel) m cid st in
  conversations (Some sel) st' =
    (fun c => if decide (id c = target)
              then {| id := id c; title := title c;
                      messages := messages c ++ [m];
                      createdAt := createdAt c |}
              else c) <$> conversations (Some sel) st /\
  id <$> conversations (Some sel) st' = id <$> conversations (Some sel) st /\
  (forall p, p ≠ sel ->
     conversationsByProject st' !! p = conversationsByProject st !! p) /\
  currentConversationId st' = currentConversationId st.
Proof.
  intros Hsel Htgt Htruthy st'.
  assert (Hrun : st' =
    {| conversationsByProject :=
         <[sel := append_to target m
                    <$> conversations_of (conversationsByProject st) sel]>
           (conversationsByProject st);
       currentConversationId := currentConversationId st |}).
  { unfold st', addMessage. by rewrite Htgt, Hsel, Htruthy. }
  assert (Hlist : conversations (Some sel) st' =
    (fun c => if decide (id c = target)
              then {| id := id c; title := title c;
                      messages := messages c ++ [m];
                      createdAt := createdAt c |}
              else c) <$> conversations (Some sel) st).
  { rewrite Hrun, !conversations_Some. simpl.
    rewrite conversations_of_insert. apply list_fmap_ext.
    intros i c _. unfold append_to, with_message. case_decide as Hid.
    - apply String.eqb_eq in Hid. by rewrite Hid.
    - apply String.eqb_neq in Hid. by rewrite Hid. }
  split; [exact Hlist |]. split; [| split].
  - rewrite Hlist, <- list_fmap_compose. apply list_fmap_ext.
    intros i c _. simpl. by case_decide.
  - intros p Hp. rewrite Hrun. simpl. by rewrite lookup_insert_ne.
  - by rewrite Hrun.
Qed.

(** X3.  A stored title is at most 33 code units long, and storing a
    stored title again changes nothing: [updateConversationTitle] with
    the title it has just stored gives back the same state. *)
Theorem updateConversationTitle_stable sel t cid st :
  String.length (trim_title t) <= 33 /\
  updateConversationTitle sel (trim_title t) cid
    (updateConversationTitle sel t cid st)
  = updateConversationTitle sel t cid st.
Proof.
  split; [apply trim_title_bound |].
  destruct (Js.truthy sel) eqn:Hs;
    [| by rewrite !updateConversationTitle_unselected].
  destruct (Js.truthy (Js.or_else cid (currentConversationId st))) eqn:Ht.
  2: { rewrite (updateConversationTitle_unresolved sel t cid st Ht).
       by apply updateConversationTitle_unresolved. }
  destruct sel as [p|]; [| done].
  destruct (Js.or_else cid (currentConversationId st)) as [target|] eqn:Et;
    [| done].
  rewrite (updateConversationTitle_run p target t cid st) by done.
  rewrite (updateConversationTitle_run p target) by done. simpl.
  rewrite conversations_of_insert, insert_insert_eq, trim_title_idem.
  do 2 f_equal. rewrite <- list_fmap_compose. apply list_fmap_ext.
  intros i c _. simpl. unfold retitle.
  destruct (String.eqb (id c) target) eqn:E; simpl; by rewrite E.
Qed.

(** X4.  Creating a conversation and deleting it again gives back the
    conversation lists as they were, provided no older conversation of
    the project carries the new id; no conversation is current
    afterwards. *)
Theorem create_then_delete sel now iso st :
  Js.truthy (Some sel) = true ->
  (forall c, c ∈ conversations (Some sel) st -> id c ≠ now) ->
  let st' := deleteConversation (Some sel) now
               (createConversation (Some sel) now iso st).2 in
  (forall p, conversations (Some p) st' = conversations (Some p) st) /\
  currentConversationId st' = None.
Proof.
  intros Hsel Hfresh st'.
  assert (Hrun : st' =
    {| conversationsByProject :=
         <[sel := conversations_of (conversationsByProject st) sel]>
           (conversationsByProject st);
       currentConversationId := None |}).
  { unfold st', createConversation. rewrite Hsel, deleteConversation_run by done.
    simpl. rewrite conversations_of_insert, insert_insert_eq.
    rewrite filter_cons, decide_False by (simpl; tauto).
    rewrite filter_fresh by exact Hfresh. by rewrite decide_True. }
  rewrite Hrun. split; [| done]. intros p. rewrite !conversations_Some. simpl.
  destruct (decide (sel = p)) as [<- | Hne].
  - by rewrite conversations_of_insert.
  - by rewrite conversations_of_insert_ne.
Qed.

(** X5.  Deleting a conversation other than the current one does not
    change which conversation is current; deleting the current one
    leaves none current; and the conversation found as current after a
    deletion never carries the deleted id. *)
Theorem deleteConversation_current sel cid st :
  Js.truthy (Some sel) = true ->
  let st' := deleteConversation (Some sel) cid st in
  (currentConversationId st ≠ Some cid ->
     currentConversation (Some sel) st' = currentConversation (Some sel) st) /\
  (currentConversationId st = Some cid ->
     currentConversation (Some sel) st' = None) /\
  (forall c, currentConversation (Some sel) st' = Some c -> id c ≠ cid).
Proof.
  intros Hsel st'. unfold st'. rewrite deleteConversation_run by done.
  unfold currentConversation. rewrite !conversations_Some. simpl.
  rewrite conversations_of_insert.
  destruct (decide (currentConversationId st = Some cid)) as [Hcur|Hcur].
  - split; [done |]. split; [done |]. done.
  - split; [| split; [done |]].
    + intros _. destruct (currentConversationId st) as [cur|]; [| done].
      apply find_filter_other. congruence.
    + intros c Hc. destruct (currentConversationId st) as [cur|]; [| done].
      apply find_some in Hc as [Hin _].
      apply list_elem_of_In, list_elem_of_filter in Hin as [Hid _]. done.
Qed.

(** X6.  An operation aimed at a conversation id that no conversation of
    the selected project carries changes no conversation list: this holds
    for [addMessage], [updateConversationTitle] and
    [deleteConversation]. *)
Theorem unknown_conversation_untouched sel target m t cid st :
  Js.or_else cid (currentConversationId st) = Some target ->
  (forall c, c ∈ conversations (Some sel) st -> id c ≠ target) ->
  forall p,
    conversations (Some p) (addMessage (Some sel) m cid st)
      = conversations (Some p) st /\
    conversations (Some p) (updateConversationTitle (Some sel) t cid st)
      = conversations (Some p) st /\
    conversations (Some p) (deleteConversation (Some sel) target st)
      = conversations (Some p) st.
Proof.
  intros Htgt Hfresh p. rewrite !conversations_Some.
  unfold addMessage, updateConversationTitle, deleteConversation.
  rewrite Htgt.
  destruct (Js.truthy (Some sel)) eqn:Hsel; [| done].
  assert (Hins : forall l,
            l = conversations_of (conversationsByProject st) sel ->
            conversations_of (<[sel := l]> (conversationsByProject st)) p =
              conversations_of (conversationsByProject st) p).
  { intros l ->. destruct (decide (sel = p)) as [<- | Hne].
    - by rewrite conversations_of_insert.
    - by rewrite conversations_of_insert_ne. }
  rewrite andb_true_l.
  split; [| split].
  - destruct (Js.truthy (Some target)); [| done]. simpl. apply Hins.
    apply fmap_fixed. intros c Hc. unfold append_to.
    apply Hfresh, String.eqb_neq in Hc. by rewrite Hc.
  - destruct (Js.truthy (Some target)); [| done]. simpl. apply Hins.
    apply fmap_fixed. intros c Hc. unfold retitle.
    apply Hfresh, String.eqb_neq in Hc. by rewrite Hc.
  - simpl. apply Hins. by apply filter_fresh.
Qed.

(** X7.  Deletions commute and repeat harmlessly: deleting two
    conversations in either order gives the same state, and deleting the
    same conversation twice is deleting it once. *)
Theorem deleteConversation_commutes sel a b st :
  deleteConversation sel a (deleteConversation sel b st) =
    deleteConversation sel b (deleteConversation sel a st) /\
  deleteConversation sel a (deleteConversation sel a st) =
    deleteConversation sel a st.
Proof.
  destruct sel as [p|]; [| done].
  destruct (Js.truthy (Some p)) eqn:Hsel.
  - rewrite !deleteConversation_run by done. simpl.
    rewrite !conversations_of_insert, !insert_insert_eq. split.
    + f_equal; [by rewrite filter_id_comm |].
      repeat case_decide; congruence.
    + f_equal.
      * f_equal. apply filter_fresh. intros c Hc.
        by apply list_elem_of_filter in Hc as [Hid _].
      * repeat case_decide; congruence.
  - by rewrite !deleteConversation_unselected.
Qed.

Definition hello : message :=
  {| role := "user"; content := "where is the login code";
     sources := None |}.

Lemma createConversation_becomes_current_witness :
  Js.truthy (Some "proj") = true /\
  id <$> conversations (Some "proj")
           (createConversation (Some "proj") "1700000000003"
              "2024-01-03T00:00:00.000Z" sample_state).2
    = ["1700000000003"; "1700000000001"; "1700000000002"] /\
  title <$> currentConversation (Some "proj")
              (createConversation (Some "proj") "1700000000003"
                 "2024-01-03T00:00:00.000Z" sample_state).2
    = Some "新对话".
Proof.
  split; [reflexivity |].
  destruct (proj2 createConversation_becomes_current "proj" "1700000000003"
              "2024-01-03T00:00:00.000Z" sample_state eq_refl)
    as (_ & Hlist & _ & _ & Hcur).
  split; [rewrite Hlist; vm_compute; reflexivity | by rewrite Hcur].
Defined.

Lemma addMessage_appends_witness :
  Js.truthy (Some "proj") = true /\
  Js.or_else (Some "1700000000002") (currentConversationId sample_state)
    = Some "1700000000002" /\
  Js.truthy (Some "1700000000002") = true /\
  messages <$> conversations (Some "proj")
                 (addMessage (Some "proj") hello (Some "1700000000002")
                    sample_state)
    = [[]; [hello]].
Proof.
  split; [reflexivity |]. split; [reflexivity |]. split; [reflexivity |].
  destruct (addMessage_appends "proj" "1700000000002" hello
              (Some "1700000000002") sample_state eq_refl eq_refl eq_refl)
    as (Hlist & _).
  rewrite Hlist. vm_compute. reflexivity.
Defined.

Lemma sample_state_ids c :
  c ∈ conversations (Some "proj") sample_state ->
  id c ≠ "1700000000003".
Proof.
  change (conversations (Some "proj") sample_state) with [conv_a; conv_b].
  intros [-> | [-> | H]%elem_of_cons]%elem_of_cons; [done | done |].
  by apply elem_of_nil in H.
Qed.

Lemma create_then_delete_witness :
  Js.truthy (Some "proj") = true /\
  (forall c, c ∈ conversations (Some "proj") sample_state ->
             id c ≠ "1700000000003") /\
  conversations (Some "proj")
    (deleteConversation (Some "proj") "1700000000003"
       (createConversation (Some "proj") "1700000000003"
          "2024-01-03T00:00:00.000Z" sample_state).2)
    = [conv_a; conv_b].
Proof.
  split; [reflexivity |]. split; [exact sample_state_ids |].
  destruct (create_then_delete "proj" "1700000000003"
              "2024-01-03T00:00:00.000Z" sample_state eq_refl
              sample_state_ids) as [Hlist _].
  by rewrite Hlist.
Defined.

Lemma deleteConversation_current_witness :
  Js.truthy (Some "proj") = true /\
  currentConversationId sample_state ≠ Some "1700000000002" /\
  currentConversation (Some "proj")
    (deleteConversation (Some "proj") "1700000000002" sample_state)
    = Some conv_a.
Proof.
  split; [reflexivity |]. split; [discriminate |].
  destruct (deleteConversation_current "proj" "1700000000002" sample_state
              eq_refl) as (Hkeep & _ & _).
  rewrite Hkeep by discriminate. reflexivity.
Defined.

Lemma unknown_conversation_untouched_witness :
  Js.or_else (Some "1700000000003") (currentConversationId sample_state)
    = Some "1700000000003" /\
  (forall c, c ∈ conversations (Some "proj") sample_state ->
             id c ≠ "1700000000003") /\
  conversations (Some "proj")
    (addMessage (Some "proj") hello (Some "1700000000003") sample_state)
    = [conv_a; conv_b].
Proof.
  split; [reflexivity |]. split; [exact sample_state_ids |].
  destruct (unknown_conversation_untouched "proj" "1700000000003" hello
              "a title" (Some "1700000000003") sample_state eq_refl
              sample_state_ids "proj") as (Hadd & _).
  by rewrite Hadd.
Defined.

Lemma addMessage_run sel target m cid st :
  Js.truthy (Some sel) = true ->
  Js.or_else cid (currentConversationId st) = Some target ->
  Js.truthy (Some target) = true ->
  addMessage (Some sel) m cid st =
    {| conversationsByProject :=
         <[sel := append_to target m
                    <$> conversations_of (conversationsByProject st) sel]>
           (conversationsByProject st);
       currentConversationId := currentConversationId st |}.
Proof.
  intros Hs Ht Htr. unfold addMessage. by rewrite Ht, Hs, Htr.
Qed.

Lemma append_to_other target m (l : list conversation) :
  (forall c, c ∈ l -> id c ≠ target) -> append_to target m <$> l = l.
Proof.
  intros H. apply fmap_fixed. intros c Hc. unfold append_to.
  apply H, String.eqb_neq in Hc. by rewrite Hc.
Qed.

Lemma retitle_other_all target t (l : list conversation) :
  (forall c, c ∈ l -> id c ≠ target) -> retitle target t <$> l = l.
Proof.
  intros H. apply fmap_fixed. intros c Hc. unfold retitle.
  apply H, String.eqb_neq in Hc. by rewrite Hc.
Qed.

Lemma createConversation_run sel now iso st :
  Js.truthy (Some sel) = true ->
  createConversation (Some sel) now iso st =
    (Some {| id := now; title := "新对话"; messages := [];
             createdAt := iso |},
     {| conversationsByProject :=
          <[sel := {| id := now; title := "新对话"; messages := [];
                      createdAt := iso |}
                   :: conversations_of (conversationsByProject st) sel]>
            (conversationsByProject st);
        currentConversationId := Some now |}).
Proof. intros H. unfold createConversation. by rewrite H. Qed.

End ChatContext.

(** ** Server-sent event lines

    The three stream readers of the client cut the decoded text of a
    response at U+000A, keep the lines that start with [data: ] and hand
    the rest of such a line to [JSON.parse].  [TextDecoder.decode] is used
    with [stream: true], so the texts of successive reads concatenate to
    the text of the response; a read is modelled by its decoded text. *)

Module Sse.

(** [line.startsWith('data: ')] guarding [line.slice(6)]. *)
Definition payload (line : string) : option string :=
  if Js.startsWith "data: " line then Some (Js.slice_from 6 line) else None.

(** The text of a whole response, given the texts of its reads. *)
Definition text_of (reads : list string) : string :=
  foldr String.append EmptyString reads.

(** How a read loop ends: [reader.read()] reports [done], or rejects. *)
Record js_error := { name : string; message : string }.

Inductive ending :=
| EndOfStream
| ReadFails (err : js_error).

(** [`HTTP ${response.status}`]. *)
Definition http_status_message (status : nat) : string :=
  "HTTP " +:+ NilEmpty.string_of_uint (Nat.to_uint status).

(** [new Error(errData.detail || `HTTP ${response.status}`)]. *)
Definition not_ok_error (detail : option string) (status : nat) : js_error :=
  {| name := "Error";
     message := default (http_status_message status)
                  (Js.or_else detail None) |}.

(** Pieces of the JSON text the server writes: a quoted string and a
    member [key: value] of an object. *)
Definition dq : string := String (ascii_of_nat 34) "".

Definition quote (s : string) : string := dq +:+ s +:+ dq.

Definition member (key value : string) : string := quote key +:+ ": " +:+ value.

Definition two_newlines : string := String Js.nl (String Js.nl "").

Lemma text_of_cons v reads : text_of (v :: reads) = v +:+ text_of reads.
Proof. reflexivity. Qed.

Lemma text_of_single v : text_of [v] = v.
Proof. unfold text_of. simpl. apply Js.app_nil_r. Qed.

Lemma substring_slice n s :
  s = String.substring 0 n s +:+ Js.slice_from n s.
Proof.
  revert s. induction n as [|n IH]; intros [|c r]; simpl; try done.
  rewrite Js.app_cons. by rewrite <- IH.
Qed.

(** X25.  The three readers handle a line exactly when it starts with
    the six code units [data: ], space included, and what they hand to
    [JSON.parse] is all that follows: a line is [data: ] followed by [p]
    if and only if its payload is [p]. *)
Theorem payload_iff line p :
  payload line = Some p <-> line = "data: " +:+ p.
Proof.
  unfold payload, Js.startsWith. split.
  - destruct (String.prefix "data: " line) eqn:E; [| done].
    intros [= <-]. apply String.prefix_correct in E.
    change (String.length "data: ") with 6 in E.
    rewrite (substring_slice 6 line) at 1. by rewrite E.
  - intros ->. rewrite !Js.app_cons. change ("" +:+ p) with p. simpl.
    repeat (destruct (ascii_dec _ _); [| congruence]).
    by destruct p.
Qed.

End Sse.

(** ** hooks/useAgentChat.js *)

Module AgentChat.

Section Reader.

(** The object carried by a [step] event and an entry of the [sources]
    array of a [complete] event; the hook stores them without looking
    inside. *)
Variables step source : Type.

(** What the hook reads off a parsed payload: [data.type] and, by type,
    [data.data], [data.data.answer], [data.data.sources]. *)
Inductive event :=
| Step (s : step)
| Complete (answer : string) (srcs : option (list source))
| Other.

(** [JSON.parse(line.slice(6))] followed by the field reads above; [None]
    when this throws, which the inner [try] catches. *)
Variable decode : string -> option event.

(** State updates and callback calls, in program order. *)
Inductive effect :=
| SetIsRunning (b : bool)
| SetSteps (l : list step)
| SetCurrentStep (s : option step)
| SetFinalAnswer (a : string)
| SetSources (l : list source)
| SetError (e : option string)
| ConsoleError
| OnComplete (answer : string) (srcs : option (list source)) (steps : list step).

Inductive response :=
| FetchFails (err : Sse.js_error)
| NotOk (detail : option string) (status : nat)
| Body (reads : list string) (e : Sse.ending).

(** The body of [for (const line of lines)]; [allSteps] is threaded. *)
Definition handle_line (line : string) (allSteps : list step)
  : list effect * list step :=
  match Sse.payload line with
  | Some p =>
      match decode p with
      | Some (Step s) =>
          let allSteps' := allSteps ++ [s] in
          ([SetSteps allSteps'; SetCurrentStep (Some s)], allSteps')
      | Some (Complete answer srcs) =>
          ([SetFinalAnswer answer; SetSources (default [] srcs);
            OnComplete answer srcs allSteps], allSteps)
      | Some Other => ([], allSteps)
      | None => ([ConsoleError], allSteps)
      end
  | None => ([], allSteps)
  end.

Fixpoint handle_lines (lines : list string) (allSteps : list step)
  : list effect * list step :=
  match lines with
  | [] => ([], allSteps)
  | line :: rest =>
      let '(fx, allSteps') := handle_line line allSteps in
      let '(fx', allSteps'') := handle_lines rest allSteps' in
      (fx ++ fx', allSteps'')
  end.

(** The [while (true)] loop, one iteration per read that is not [done]. *)
Fixpoint read_loop (reads : list string) (buffer : string)
    (allSteps : list step) : list effect :=
  match reads with
  | [] => []
  | value :: rest =>
      let buffer := buffer +:+ value in
      let lines := Js.split_nl buffer in
      let '(popped, lines) := Js.pop lines in
      let buffer := default "" popped in
      let '(fx, allSteps) := handle_lines lines allSteps in
      fx ++ read_loop rest buffer allSteps
  end.

(** The [catch] block. *)
Definition on_error (err : Sse.js_error) : list effect :=
  if String.eqb (Sse.name err) "AbortError" then []
  else [SetError (Some (default "Agent 请求失败"
                          (Js.or_else (Some (Sse.message err)) None)));
        ConsoleError].

Definition runAgent (resp : response) : list effect :=
  [SetIsRunning true; SetSteps []; SetCurrentStep None; SetFinalAnswer "";
   SetSources []; SetError None]
  ++ match resp with
     | FetchFails err => on_error err
     | NotOk detail status => on_error (Sse.not_ok_error detail status)
     | Body reads e =>
         read_loop reads "" []
         ++ match e with
            | Sse.EndOfStream => []
            | Sse.ReadFails err => on_error err
            end
     end
  ++ [SetIsRunning false; SetCurrentStep None].

(** The lines of a text that end in U+000A, in order. *)
Definition complete_lines (text : string) : list string :=
  removelast (Js.split_nl text).

Lemma handle_lines_app l1 l2 allSteps :
  handle_lines (l1 ++ l2) allSteps =
    let '(fx, st) := handle_lines l1 allSteps in
    let '(fx', st') := handle_lines l2 st in
    (fx ++ fx', st').
Proof.
  revert allSteps. induction l1 as [|l l1 IH]; intros allSteps; simpl.
  - by destruct (handle_lines l2 allSteps).
  - destruct (handle_line l allSteps) as [f0 s0]. rewrite IH.
    destruct (handle_lines l1 s0) as [f1 s1].
    destruct (handle_lines l2 s1) as [f2 s2].
    by rewrite (assoc_L (++)).
Qed.

(** Whatever the reads are, the loop handles the complete lines of the
    buffered text followed by the text read, once each and in order. *)
Lemma read_loop_lines reads buffer allSteps :
  reads ≠ [] ->
  read_loop reads buffer allSteps =
    (handle_lines (complete_lines (buffer +:+ Sse.text_of reads)) allSteps).1.
Proof.
  revert buffer allSteps.
  induction reads as [|v reads IH]; intros buffer allSteps Hne; [done |].
  destruct reads as [|v' reads'].
  - rewrite Sse.text_of_single. unfold complete_lines, read_loop, Js.pop.
    destruct (handle_lines _ allSteps) as [fx st]. simpl.
    by rewrite (right_id_L [] (++)).
  - rewrite Sse.text_of_cons. unfold complete_lines.
    rewrite <- Js.app_assoc, Js.split_nl_app.
    rewrite removelast_app by apply Js.split_nl_nonempty.
    rewrite handle_lines_app.
    change (read_loop (v :: v' :: reads') buffer allSteps) with
      (let '(fx, st) :=
         handle_lines (removelast (Js.split_nl (buffer +:+ v))) allSteps in
       fx ++ read_loop (v' :: reads')
               (default "" (last (Js.split_nl (buffer +:+ v)))) st).
    destruct (handle_lines (removelast _) allSteps) as [fx st].
    rewrite IH by done. unfold complete_lines.
    by destruct (handle_lines _ st).
Qed.

(** C8.  Re-chunking does not change what [runAgent] does: for every
    response text and every way of cutting it into reads, the unfinished
    last line of a read is kept and continued by the next read, so the
    loop handles exactly the complete lines of the whole text, once each
    and in order, and the updates and callback calls are those of reading
    the text in one piece. *)
Theorem runAgent_rechunk reads e :
  read_loop reads "" [] =
    (handle_lines (complete_lines (Sse.text_of reads)) []).1 /\
  runAgent (Body reads e) = runAgent (Body [Sse.text_of reads] e).
Proof.
  assert (Hloop : forall rs, read_loop rs "" [] =
            (handle_lines (complete_lines (Sse.text_of rs)) []).1).
  { intros [|v rs]; [done |]. by rewrite read_loop_lines. }
  split; [apply Hloop |].
  unfold runAgent. do 2 f_equal. f_equal.
  rewrite (Hloop reads), (Hloop [_]). by rewrite Sse.text_of_single.
Qed.

End Reader.

Arguments Step {step source} s.
Arguments Complete {step source} answer srcs.
Arguments runAgent {step source} decode resp.
Arguments OnComplete {step source} answer srcs steps.

(** *** A sample exchange

    A [step] event and a [complete] event as the server writes them, and
    a decoder that agrees with [JSON.parse] on these two payloads. *)

Definition step_payload : string :=
  "{" +:+ Sse.member "type" (Sse.quote "step") +:+ ", "
      +:+ Sse.member "data" (Sse.quote "thinking") +:+ "}".

Definition complete_payload : string :=
  "{" +:+ Sse.member "type" (Sse.quote "complete") +:+ ", "
      +:+ Sse.member "data"
            ("{" +:+ Sse.member "answer" (Sse.quote "see a/Login.jsx")
                 +:+ ", "
                 +:+ Sse.member "sources" ("[" +:+ Sse.quote "a/Login.jsx" +:+ "]")
                 +:+ "}")
      +:+ "}".

Definition sample_decode (payload : string) : option (event string string) :=
  if String.eqb payload step_payload then Some (Step "thinking")
  else if String.eqb payload complete_payload
       then Some (Complete "see a/Login.jsx" (Some ["a/Login.jsx"]))
       else None.

Definition sample_text : string :=
  "data: " +:+ step_payload +:+ Sse.two_newlines
  +:+ "data: " +:+ complete_payload +:+ Sse.two_newlines.

(** The text in two reads, the boundary inside the [complete] frame. *)
Definition reads_cut_in_frame : list string :=
  [Js.slice_to 60 sample_text; Js.slice_from 60 sample_text].

(** The frame cut in two is put together again and handled once. *)
Example runAgent_joins_cut_frame :
  Sse.text_of reads_cut_in_frame = sample_text /\
  List.filter
    (fun fx => match fx with OnComplete _ _ _ => true | _ => false end)
    (runAgent sample_decode (Body reads_cut_in_frame Sse.EndOfStream))
  = [OnComplete "see a/Login.jsx" (Some ["a/Login.jsx"]) ["thinking"]].
Proof. split; vm_compute; reflexivity. Qed.

(** *** What the loop handles and what the callback gets *)

Section Stream.

Context {step source : Type}.
Variable decode : string -> option (event step source).

Local Abbreviation handle_lines := (handle_lines step source decode).
Local Abbreviation read_loop := (read_loop step source decode).
Local Abbreviation on_error := (on_error step source).

(** The calls of the completion callback, in order. *)
Definition completions (fxs : list (effect step source))
  : list (string * option (list source) * list step) :=
  omap (fun fx => match fx with
                  | OnComplete answer srcs steps => Some (answer, srcs, steps)
                  | _ => None
                  end) fxs.

(** The events of the lines that decode. *)
Definition events_of_lines (lines : list string) : list (event step source) :=
  omap (fun line => Sse.payload line ≫= decode) lines.

(** What the callback gets for a list of events, [allSteps] holding the
    steps seen before. *)
Fixpoint calls (allSteps : list step) (evs : list (event step source))
  : list (string * option (list source) * list step) :=
  match evs with
  | [] => []
  | Step s :: rest => calls (allSteps ++ [s]) rest
  | Complete answer srcs :: rest =>
      (answer, srcs, allSteps) :: calls allSteps rest
  | Other _ _ :: rest => calls allSteps rest
  end.

Lemma handle_lines_calls lines allSteps :
  completions (handle_lines lines allSteps).1 =
    calls allSteps (events_of_lines lines).
Proof.
  revert allSteps. induction lines as [|line lines IH]; intros allSteps;
    [done |].
  simpl. unfold handle_line, events_of_lines. simpl.
  fold (events_of_lines lines).
  destruct (Sse.payload line) as [p|]; simpl.
  - destruct (decode p) as [[s|answer srcs|]|]; simpl.
    + specialize (IH (allSteps ++ [s])).
      destruct (handle_lines lines (allSteps ++ [s])). simpl in *. exact IH.
    + specialize (IH allSteps).
      destruct (handle_lines lines allSteps). simpl in *. by rewrite IH.
    + specialize (IH allSteps).
      destruct (handle_lines lines allSteps). simpl in *. exact IH.
    + specialize (IH allSteps).
      destruct (handle_lines lines allSteps). simpl in *. exact IH.
  - specialize (IH allSteps).
    destruct (handle_lines lines allSteps). simpl in *. exact IH.
Qed.

Lemma calls_steps_then_complete allSteps ss answer srcs :
  calls allSteps ((Step <$> ss) ++ [Complete answer srcs]) =
    [(answer, srcs, allSteps ++ ss)].
Proof.
  revert allSteps. induction ss as [|s ss IH]; intros allSteps; simpl.
  - by rewrite (right_id_L [] (++)).
  - by rewrite IH, <- (assoc_L (++)).
Qed.

Lemma agent_on_error_completions err : completions (on_error err) = [].
Proof. unfold AgentChat.on_error. by destruct (String.eqb _ _). Qed.

Lemma runAgent_completions reads e :
  completions (runAgent decode (Body reads e)) =
    calls [] (events_of_lines (complete_lines (Sse.text_of reads))).
Proof.
  unfold runAgent, completions. rewrite !omap_app. simpl.
  rewrite (right_id_L [] (++)).
  assert (He : omap (fun fx => match fx with
                  | OnComplete answer srcs steps => Some (answer, srcs, steps)
                  | _ => None
                  end)
                 match e with
                 | Sse.EndOfStream => []
                 | Sse.ReadFails err => on_error err
                 end = []).
  { destruct e; [done | apply agent_on_error_completions]. }
  rewrite He, (right_id_L [] (++)).
  fold (completions (read_loop reads "" [])).
  destruct reads as [|v reads]; [done |].
  rewrite read_loop_lines by done. apply handle_lines_calls.
Qed.

(** X8.  [runAgent] never handles what follows the last U+000A of the
    response: if the text read is [t], a line break and a rest without
    line break, the loop handles exactly the lines of [t], however the
    text was cut into reads; a response without any line break is not
    handled at all. *)
Theorem runAgent_drops_unterminated_tail reads t tail :
  Js.split_nl tail = [tail] ->
  (Sse.text_of reads = t +:+ String Js.nl tail ->
   read_loop reads "" [] = (handle_lines (Js.split_nl t) []).1) /\
  (Sse.text_of reads = tail -> read_loop reads "" [] = []).
Proof.
  intros Htail. split; intros Htext.
  - destruct reads as [|v reads].
    + exfalso. simpl in Htext. destruct t; discriminate.
    + rewrite read_loop_lines by done. unfold complete_lines.
      change ("" +:+ Sse.text_of (v :: reads)) with (Sse.text_of (v :: reads)).
      rewrite Htext, Js.split_nl_tail by done.
      by rewrite removelast_last.
  - destruct reads as [|v reads]; [done |].
    rewrite read_loop_lines by done. unfold complete_lines.
    change ("" +:+ Sse.text_of (v :: reads)) with (Sse.text_of (v :: reads)).
    by rewrite Htext, Htail.
Qed.

(** X9.  When the complete lines of the response decode to a run of
    [step] events followed by one [complete] event, the completion
    callback is called once, with the answer and sources of that event
    and with the steps of the [step] events in stream order, whatever
    the cut into reads and whether or not the stream then fails. *)
Theorem runAgent_hands_over_steps reads e ss answer srcs :
  events_of_lines (complete_lines (Sse.text_of reads)) =
    (Step <$> ss) ++ [Complete answer srcs] ->
  completions (runAgent decode (Body reads e)) = [(answer, srcs, ss)].
Proof.
  intros Hevs. by rewrite runAgent_completions, Hevs, calls_steps_then_complete.
Qed.

End Stream.

Lemma runAgent_drops_unterminated_tail_witness :
  Js.split_nl ("data: " +:+ complete_payload)
    = ["data: " +:+ complete_payload] /\
  Sse.text_of [Js.slice_to 60 sample_text;
               Js.slice_from 60 sample_text
                 +:+ "data: " +:+ complete_payload]
    = sample_text +:+ "data: " +:+ complete_payload /\
  completions
    (read_loop string string sample_decode
       [Js.slice_to 60 sample_text;
        Js.slice_from 60 sample_text +:+ "data: " +:+ complete_payload]
       "" [])
    = [("see a/Login.jsx", Some ["a/Login.jsx"], ["thinking"])].
Proof.
  assert (Htail : Js.split_nl ("data: " +:+ complete_payload)
                  = ["data: " +:+ complete_payload])
    by (vm_compute; reflexivity).
  split; [exact Htail |]. split; [vm_compute; reflexivity |].
  destruct (runAgent_drops_unterminated_tail sample_decode
              [Js.slice_to 60 sample_text;
               Js.slice_from 60 sample_text +:+ "data: " +:+ complete_payload]
              (Js.slice_to (String.length sample_text - 1) sample_text)
              ("data: " +:+ complete_payload) Htail) as [Hloop _].
  rewrite Hloop by (vm_compute; reflexivity).
  vm_compute. reflexivity.
Defined.

Lemma runAgent_hands_over_steps_witness :
  events_of_lines sample_decode
    (complete_lines (Sse.text_of reads_cut_in_frame))
    = (Step <$> ["thinking"])
      ++ [Complete "see a/Login.jsx" (Some ["a/Login.jsx"])] /\
  completions (runAgent sample_decode (Body reads_cut_in_frame Sse.EndOfStream))
    = [("see a/Login.jsx", Some ["a/Login.jsx"], ["thinking"])].
Proof.
  assert (Hevs : events_of_lines sample_decode
                   (complete_lines (Sse.text_of reads_cut_in_frame))
                 = (Step <$> ["thinking"])
                   ++ [Complete "see a/Login.jsx" (Some ["a/Login.jsx"])])
    by (vm_compute; reflexivity).
  split; [exact Hevs |].
  exact (runAgent_hands_over_steps sample_decode reads_cut_in_frame
           Sse.EndOfStream ["thinking"] "see a/Login.jsx"
           (Some ["a/Login.jsx"]) Hevs).
Defined.

End AgentChat.

(** ** hooks/useStreamingChat.js *)

Module StreamingChat.

Section Reader.

(** An entry of the array carried by a [sources] event. *)
Variable source : Type.

(** What the hook reads off a parsed payload: [data.type] and
    [data.data]. *)
Inductive event :=
| Sources (l : list source)
| Content (delta : string)
| Done
| Other.

(** [JSON.parse(line.slice(6))] followed by the field reads; [None] when
    this throws, which the inner [try] catches and drops. *)
Variable decode : string -> option event.

(** State updates and callback calls, in program order. *)
Inductive effect :=
| SetIsStreaming (b : bool)
| SetStreamingContent (s : string)
| SetStreamingSources (l : list source)
| SetError (e : option string)
| OnComplete (content : string) (sources : list source).

(** One [reader.read()] that was not [done]: the decoded text, and whether
    [abortControllerRef.current.signal.aborted] held when it resolved. *)
Record read := { aborted : bool; value : string }.

Inductive response :=
| FetchFails (err : Sse.js_error)
| NotOk (detail : option string) (status : nat)
| Body (reads : list read) (e : Sse.ending).

(** The locals [content] and [sources] of [sendMessage]. *)
Record locals := { content : string; sources : list source }.

(** The branches on [data.type]. *)
Definition handle_event (ev : event) (st : locals) : list effect * locals :=
  match ev with
  | Sources l =>
      ([SetStreamingSources l], {| content := content st; sources := l |})
  | Content delta =>
      let c := content st +:+ delta in
      ([SetStreamingContent c], {| content := c; sources := sources st |})
  | Done => ([OnComplete (content st) (sources st)], st)
  | Other => ([], st)
  end.

(** The body of [for (const line of lines)]. *)
Definition handle_line (line : string) (st : locals) : list effect * locals :=
  match Sse.payload line with
  | Some p =>
      match decode p with
      | Some ev => handle_event ev st
      | None => ([], st)
      end
  | None => ([], st)
  end.

Fixpoint handle_lines (lines : list string) (st : locals)
  : list effect * locals :=
  match lines with
  | [] => ([], st)
  | line :: rest =>
      let '(fx, st') := handle_line line st in
      let '(fx', st'') := handle_lines rest st' in
      (fx ++ fx', st'')
  end.

(** The [catch] block. *)
Definition on_error (err : Sse.js_error) : list effect :=
  if String.eqb (Sse.name err) "AbortError" then []
  else [SetError (Some (default "请求失败"
                          (Js.or_else (Some (Sse.message err)) None)))].

(** The [while (true)] loop: each read is cut into lines on its own. *)
Fixpoint read_loop (reads : list read) (e : Sse.ending) (st : locals)
  : list effect :=
  match reads with
  | [] =>
      match e with
      | Sse.EndOfStream => []
      | Sse.ReadFails err => on_error err
      end
  | r :: rest =>
      if aborted r then []
      else
        let '(fx, st') := handle_lines (Js.split_nl (value r)) st in
        fx ++ read_loop rest e st'
  end.

(** The [finally] block. *)
Definition cleanup : list effect :=
  [SetIsStreaming false; SetStreamingContent ""; SetStreamingSources []].

Definition sendMessage (resp : response) : list effect :=
  [SetIsStreaming true; SetStreamingContent ""; SetStreamingSources [];
   SetError None]
  ++ match resp with
     | FetchFails err => on_error err
     | NotOk detail status => on_error (Sse.not_ok_error detail status)
     | Body reads e => read_loop reads e {| content := ""; sources := [] |}
     end
  ++ cleanup.

(** The state the hook returns to its caller. *)
Record hook := {
  isStreaming : bool;
  streamingContent : string;
  streamingSources : list source;
  error : option string;
}.

Definition initial_hook : hook :=
  {| isStreaming := false; streamingContent := "";
     streamingSources := []; error := None |}.

Definition apply_effect (h : hook) (fx : effect) : hook :=
  match fx with
  | SetIsStreaming b =>
      {| isStreaming := b; streamingContent := streamingContent h;
         streamingSources := streamingSources h; error := error h |}
  | SetStreamingContent s =>
      {| isStreaming := isStreaming h; streamingContent := s;
         streamingSources := streamingSources h; error := error h |}
  | SetStreamingSources l =>
      {| isStreaming := isStreaming h; streamingContent := streamingContent h;
         streamingSources := l; error := error h |}
  | SetError e =>
      {| isStreaming := isStreaming h; streamingContent := streamingContent h;
         streamingSources := streamingSources h; error := e |}
  | OnComplete _ _ => h
  end.

Definition run_effects (fxs : list effect) (h : hook) : hook :=
  foldl apply_effect h fxs.

(** The calls of the completion callback, in order. *)
Definition completions (fxs : list effect) : list (string * list source) :=
  omap (fun fx => match fx with
                  | OnComplete c l => Some (c, l)
                  | _ => None
                  end) fxs.

(** The values passed to [setStreamingContent], in order. *)
Definition published (fxs : list effect) : list string :=
  omap (fun fx => match fx with
                  | SetStreamingContent s => Some s
                  | _ => None
                  end) fxs.

(** The events of the lines the loop handles before it stops: reads up to
    the first one that finds the signal aborted. *)
Definition events_of_lines (lines : list string) : list event :=
  omap (fun line => Sse.payload line ≫= decode) lines.

Fixpoint handled_lines (reads : list read) : list string :=
  match reads with
  | [] => []
  | r :: rest =>
      if aborted r then [] else Js.split_nl (value r) ++ handled_lines rest
  end.

(** Accumulated content after each delta, starting from [acc]. *)
Fixpoint accumulate (acc : string) (evs : list event) : list string :=
  match evs with
  | [] => []
  | Content delta :: rest => (acc +:+ delta) :: accumulate (acc +:+ delta) rest
  | _ :: rest => accumulate acc rest
  end.

(** The content accumulated over a list of events. *)
Definition content_after (acc : string) (evs : list event) : string :=
  foldl (fun acc ev => match ev with
                       | Content delta => acc +:+ delta
                       | _ => acc
                       end) acc evs.

(** The sources after a list of events: those of the last [sources]
    event. *)
Definition sources_after (l : list source) (evs : list event) : list source :=
  foldl (fun l ev => match ev with
                     | Sources l' => l'
                     | _ => l
                     end) l evs.

(** Running the event branches over a list of events. *)
Fixpoint handle_events (evs : list event) (st : locals)
  : list effect * locals :=
  match evs with
  | [] => ([], st)
  | ev :: rest =>
      let '(fx, st') := handle_event ev st in
      let '(fx', st'') := handle_events rest st' in
      (fx ++ fx', st'')
  end.

Lemma events_of_lines_cons line lines :
  events_of_lines (line :: lines) =
    match Sse.payload line ≫= decode with
    | Some ev => ev :: events_of_lines lines
    | None => events_of_lines lines
    end.
Proof. reflexivity. Qed.

Lemma handle_lines_events lines st :
  handle_lines lines st = handle_events (events_of_lines lines) st.
Proof.
  revert st. induction lines as [|line lines IH]; intros st; [done |].
  rewrite events_of_lines_cons. simpl. unfold handle_line.
  destruct (Sse.payload line) as [p|]; simpl.
  - destruct (decode p) as [ev|]; simpl.
    + destruct (handle_event ev st) as [fx st']. by rewrite IH.
    + rewrite IH. by destruct (handle_events _ st).
  - rewrite IH. by destruct (handle_events _ st).
Qed.

Lemma events_of_lines_app l1 l2 :
  events_of_lines (l1 ++ l2) = events_of_lines l1 ++ events_of_lines l2.
Proof. apply omap_app. Qed.

Lemma handle_events_app evs1 evs2 st :
  handle_events (evs1 ++ evs2) st =
    let '(fx, st') := handle_events evs1 st in
    let '(fx', st'') := handle_events evs2 st' in
    (fx ++ fx', st'').
Proof.
  revert st. induction evs1 as [|ev evs1 IH]; intros st; simpl.
  - by destruct (handle_events evs2 st).
  - destruct (handle_event ev st) as [f0 s0]. rewrite IH.
    destruct (handle_events evs1 s0) as [f1 s1].
    destruct (handle_events evs2 s1) as [f2 s2].
    by rewrite (assoc_L (++)).
Qed.

Lemma handle_events_locals evs st :
  (handle_events evs st).2 =
    {| content := content_after (content st) evs;
       sources := sources_after (sources st) evs |}.
Proof.
  revert st. induction evs as [|ev evs IH]; intros st; simpl.
  - by destruct st.
  - destruct (handle_event ev st) as [f0 s0] eqn:E0.
    specialize (IH s0). destruct (handle_events evs s0) as [f1 s1].
    simpl in *. rewrite IH. destruct ev; inversion E0; subst; done.
Qed.

Lemma handle_events_published evs st :
  published (handle_events evs st).1 = accumulate (content st) evs.
Proof.
  revert st. induction evs as [|ev evs IH]; intros st; [done |].
  simpl. destruct (handle_event ev st) as [f0 s0] eqn:E0.
  specialize (IH s0). destruct (handle_events evs s0) as [f1 s1].
  simpl in *. unfold published in *. rewrite omap_app, IH.
  destruct ev; inversion E0; subst; done.
Qed.

Lemma handle_events_completions evs st :
  Done ∉ evs -> completions (handle_events evs st).1 = [].
Proof.
  revert st. induction evs as [|ev evs IH]; intros st Hnd; [done |].
  simpl. destruct (handle_event ev st) as [f0 s0] eqn:E0.
  apply not_elem_of_cons in Hnd as [Hev Hnd].
  specialize (IH s0 Hnd). destruct (handle_events evs s0) as [f1 s1].
  simpl in *. unfold completions in *. rewrite omap_app, IH.
  destruct ev; inversion E0; subst; done.
Qed.

Lemma accumulate_app acc evs1 evs2 :
  accumulate acc (evs1 ++ evs2) =
    accumulate acc evs1 ++ accumulate (content_after acc evs1) evs2.
Proof.
  revert acc. induction evs1 as [|ev evs1 IH]; intros acc; [done |].
  destruct ev; simpl; by rewrite IH.
Qed.

Lemma on_error_published err : published (on_error err) = [].
Proof. unfold on_error. by destruct (String.eqb _ _). Qed.

Lemma on_error_completions err : completions (on_error err) = [].
Proof. unfold on_error. by destruct (String.eqb _ _). Qed.

Lemma read_loop_published reads e st :
  published (read_loop reads e st) =
    accumulate (content st) (events_of_lines (handled_lines reads)).
Proof.
  revert st. induction reads as [|r reads IH]; intros st; simpl.
  - destruct e; [done | apply on_error_published].
  - destruct (aborted r); [done |].
    rewrite events_of_lines_app, accumulate_app, handle_lines_events.
    pose proof (handle_events_published
                  (events_of_lines (Js.split_nl (value r))) st) as Hp.
    pose proof (handle_events_locals
                  (events_of_lines (Js.split_nl (value r))) st) as Hl.
    destruct (handle_events _ st) as [fx st']. simpl in *.
    unfold published in *. rewrite omap_app, Hp.
    fold (published (read_loop reads e st')). rewrite IH. by subst st'.
Qed.

Lemma read_loop_completions reads e st :
  Done ∉ events_of_lines (handled_lines reads) ->
  completions (read_loop reads e st) = [].
Proof.
  revert st. induction reads as [|r reads IH]; intros st Hnd; simpl.
  - destruct e; [done | apply on_error_completions].
  - simpl in Hnd. destruct (aborted r); [done |].
    rewrite events_of_lines_app in Hnd. apply not_elem_of_app in Hnd as [H1 H2].
    rewrite handle_lines_events.
    pose proof (handle_events_completions _ st H1) as Hc.
    destruct (handle_events _ st) as [fx st']. simpl in *.
    unfold completions in *. rewrite omap_app, Hc.
    fold (completions (read_loop reads e st')). by rewrite IH.
Qed.

Lemma run_effects_app fxs1 fxs2 h :
  run_effects (fxs1 ++ fxs2) h = run_effects fxs2 (run_effects fxs1 h).
Proof. apply foldl_app. Qed.

(** Whatever happened before, the [finally] block leaves the hook idle
    with empty streaming content and sources. *)
Lemma sendMessage_final resp h :
  let h' := run_effects (sendMessage resp) h in
  isStreaming h' = false /\ streamingContent h' = "" /\
  streamingSources h' = [].
Proof.
  unfold sendMessage. rewrite (assoc_L (++)), run_effects_app. done.
Qed.

(** The reading of C4 under which the caller keeps what was delivered:
    once the attempt is over, the hook still shows the content accumulated
    from the frames it handled. *)
Definition partial_content_retained (reads : list read) (e : Sse.ending)
    (h : hook) : Prop :=
  streamingContent (run_effects (sendMessage (Body reads e)) h) =
    content_after "" (events_of_lines (handled_lines reads)).

(** C4, amended.  In an attempt that handles no [done] event, in
    particular one cut short by a failed read or by cancellation, every
    content frame handled was published to the streaming content as it
    arrived, accumulated and in order, and the completion callback is
    never called; but the [finally] block then publishes the empty content
    and the empty source list, so when the attempt is over the hook no
    longer holds the partial answer. *)
Theorem sendMessage_without_done reads e h :
  Done ∉ events_of_lines (handled_lines reads) ->
  let fxs := sendMessage (Body reads e) in
  published fxs =
    "" :: accumulate "" (events_of_lines (handled_lines reads)) ++ [""] /\
  completions fxs = [] /\
  streamingContent (run_effects fxs h) = "" /\
  streamingSources (run_effects fxs h) = [].
Proof.
  intros Hnd fxs. split; [| split].
  - unfold fxs, sendMessage, published.
    rewrite !omap_app. fold (published (read_loop reads e
                               {| content := ""; sources := [] |})).
    by rewrite read_loop_published.
  - unfold fxs, sendMessage, completions.
    rewrite !omap_app. fold (completions (read_loop reads e
                               {| content := ""; sources := [] |})).
    by rewrite read_loop_completions.
  - pose proof (sendMessage_final (Body reads e) h) as (_ & Hc & Hs). done.
Qed.

(** *** Streams whose reads hold whole frames *)

(** The server writes an event as the line [data: <json>] followed by an
    empty line; [render] is the JSON text it writes for an event. *)
Variable render : event -> string.

Definition frame (ev : event) : string :=
  "data: " +:+ render ev +:+ Sse.two_newlines.

(** A read that is not aborted and holds the frames of [evs]. *)
Definition whole_read (evs : list event) : read :=
  {| aborted := false; value := Sse.text_of (frame <$> evs) |}.

Hypothesis decode_render : forall ev, decode (render ev) = Some ev.
Hypothesis render_one_line : forall ev, Js.split_nl (render ev) = [render ev].

Lemma split_nl_single s h : Js.split_nl s = [h] -> h = s.
Proof.
  revert h. induction s as [|c r IH]; intros h; simpl; [congruence |].
  pose proof (Js.split_nl_nonempty r) as Hne.
  destruct (Ascii.eqb c Js.nl).
  - destruct (Js.split_nl r); [done | discriminate].
  - destruct (Js.split_nl r) as [|x [|y t]] eqn:Er; [done | | discriminate].
    intros [= <-]. by rewrite (IH x).
Qed.

Lemma split_nl_line s t :
  Js.split_nl s = [s] ->
  Js.split_nl (s +:+ String Js.nl t) = s :: Js.split_nl t.
Proof.
  induction s as [|c r IH]; [done |].
  rewrite Js.app_cons. simpl.
  pose proof (Js.split_nl_nonempty r) as Hne.
  destruct (Ascii.eqb c Js.nl).
  - destruct (Js.split_nl r); [done | discriminate].
  - destruct (Js.split_nl r) as [|x [|y t']] eqn:Er; [done | | discriminate].
    intros _. pose proof (split_nl_single _ _ Er) as ->.
    by rewrite IH.
Qed.

Lemma split_nl_frame ev t :
  Js.split_nl (frame ev +:+ t) =
    ("data: " +:+ render ev) :: "" :: Js.split_nl t.
Proof.
  unfold frame, Sse.two_newlines.
  rewrite !Js.app_assoc.
  change (String Js.nl (String Js.nl "") +:+ t)
    with (String Js.nl (String Js.nl t)).
  rewrite <- Js.app_assoc, split_nl_line; [done |].
  pose proof (render_one_line ev) as Hr.
  rewrite !Js.app_cons. change ("" +:+ render ev) with (render ev).
  simpl. by rewrite Hr.
Qed.

Lemma payload_data p : Sse.payload ("data: " +:+ p) = Some p.
Proof.
  unfold Sse.payload. rewrite !Js.app_cons.
  change ("" +:+ p) with p. unfold Js.startsWith. simpl.
  repeat (destruct (ascii_dec _ _); [| congruence]).
  by destruct p.
Qed.

Lemma events_of_frames evs :
  events_of_lines (Js.split_nl (Sse.text_of (frame <$> evs))) = evs.
Proof.
  induction evs as [|ev evs IH]; [done |].
  rewrite fmap_cons, Sse.text_of_cons, split_nl_frame.
  rewrite !events_of_lines_cons, payload_data. simpl.
  by rewrite decode_render, IH.
Qed.

Lemma handled_whole_reads groups :
  events_of_lines (handled_lines (whole_read <$> groups)) = concat groups.
Proof.
  induction groups as [|g groups IH]; [done |].
  rewrite fmap_cons. cbn [handled_lines whole_read aborted value concat].
  by rewrite events_of_lines_app, events_of_frames, IH.
Qed.

Lemma read_loop_whole_reads groups st :
  read_loop (whole_read <$> groups) Sse.EndOfStream st =
    (handle_events (concat groups) st).1.
Proof.
  revert st. induction groups as [|g groups IH]; intros st; [done |].
  rewrite fmap_cons. cbn [read_loop whole_read aborted value concat].
  rewrite handle_lines_events, events_of_frames, handle_events_app.
  destruct (handle_events g st) as [fx st']. rewrite IH.
  by destruct (handle_events (concat groups) st').
Qed.

Lemma handle_contents deltas st :
  completions (handle_events (Content <$> deltas) st).1 = [] /\
  (handle_events (Content <$> deltas) st).2 =
    {| content := content st +:+ Sse.text_of deltas; sources := sources st |}.
Proof.
  revert st. induction deltas as [|d deltas IH]; intros st.
  - simpl. rewrite Js.app_nil_r. by destruct st.
  - rewrite fmap_cons. simpl.
    destruct (IH {| content := content st +:+ d; sources := sources st |})
      as [Hc Hl].
    destruct (handle_events (Content <$> deltas) _) as [fx st'].
    simpl in *. rewrite Hl, Js.app_assoc. done.
Qed.

(** When every read holds whole frames, a stream of one [sources] event,
    any number of [content] events and a final [done] event makes the
    hook call the completion callback once, with the deltas concatenated
    in order and the sources of the [sources] event. *)
Lemma sendMessage_whole_frames groups l deltas :
  concat groups = Sources l :: (Content <$> deltas) ++ [Done] ->
  completions (sendMessage (Body (whole_read <$> groups) Sse.EndOfStream)) =
    [(Sse.text_of deltas, l)].
Proof.
  intros Hevs. unfold sendMessage, completions. rewrite !omap_app.
  fold (completions (read_loop (whole_read <$> groups) Sse.EndOfStream
                       {| content := ""; sources := [] |})).
  rewrite read_loop_whole_reads, Hevs. simpl.
  rewrite handle_events_app.
  destruct (handle_contents deltas {| content := ""; sources := l |})
    as [Hc Hl].
  destruct (handle_events (Content <$> deltas) _) as [fx st'].
  simpl in *. subst st'. simpl.
  unfold completions in *. rewrite omap_app, Hc. done.
Qed.

End Reader.

Arguments Sources {source} l.
Arguments Content {source} delta.
Arguments Done {source}.
Arguments Other {source}.
Arguments sendMessage {source} decode resp.
Arguments completions {source} fxs.
Arguments published {source} fxs.
Arguments run_effects {source} fxs h.
Arguments initial_hook {source}.
Arguments streamingContent {source} h.
Arguments events_of_lines {source} decode lines.
Arguments partial_content_retained {source} decode reads e h.
Arguments whole_read {source} render evs.
Arguments frame {source} render ev.

(** *** A sample exchange

    The frames of one answer as the server writes them, and a decoder
    that agrees with [JSON.parse] on every payload the hook meets in the
    runs below: the five payloads of the exchange decode to their events
    and a payload cut short is rejected. *)

Record source_ref := { path : string; module_name : string; score : string }.

Definition render_source (r : source_ref) : string :=
  "{" +:+ Sse.member "path" (Sse.quote (path r)) +:+ ", "
      +:+ Sse.member "module" (Sse.quote (module_name r)) +:+ ", "
      +:+ Sse.member "score" (score r) +:+ "}".

Definition sample_render (ev : event source_ref) : string :=
  match ev with
  | Sources l =>
      "{" +:+ Sse.member "type" (Sse.quote "sources") +:+ ", "
          +:+ Sse.member "data" ("[" +:+ String.concat ", " (render_source <$> l)
                                 +:+ "]") +:+ "}"
  | Content delta =>
      "{" +:+ Sse.member "type" (Sse.quote "content") +:+ ", "
          +:+ Sse.member "data" (Sse.quote delta) +:+ "}"
  | Done => "{" +:+ Sse.member "type" (Sse.quote "done") +:+ "}"
  | Other => "{" +:+ Sse.member "type" (Sse.quote "ping") +:+ "}"
  end.

Definition sample_sources : event source_ref :=
  Sources [{| path := "a/Login.jsx"; module_name := "a"; score := "0.91" |}].

Definition delta1 : string := "The login ".
Definition delta2 : string := "handler is ".
Definition delta3 : string := "in a/Login.jsx".

Definition sample_events : list (event source_ref) :=
  [sample_sources; Content delta1; Content delta2; Content delta3; Done].

Definition sample_decode (payload : string) : option (event source_ref) :=
  List.find (fun ev => String.eqb (sample_render ev) payload) sample_events.

(** One frame per read. *)
Definition reads_by_frame : list read :=
  (fun ev => whole_read sample_render [ev]) <$> sample_events.

(** The same text in two reads, the boundary falling inside the frame of
    the second delta. *)
Definition reads_cut_in_frame : list read :=
  [ {| aborted := false;
       value := Sse.text_of (frame sample_render
                               <$> [sample_sources; Content delta1])
                +:+ Js.slice_to 30 (frame sample_render (Content delta2)) |};
    {| aborted := false;
       value := Js.slice_from 30 (frame sample_render (Content delta2))
                +:+ Sse.text_of (frame sample_render
                                   <$> [Content delta3; Done]) |} ].

(** Three content frames, then the read fails. *)
Definition reads_before_failure : list read :=
  (fun ev => whole_read sample_render [ev])
    <$> [sample_sources; Content delta1; Content delta2; Content delta3].

Definition network_error : Sse.ending :=
  Sse.ReadFails {| Sse.name := "TypeError"; Sse.message := "network error" |}.

(** Three content frames, then a read that finds the signal aborted. *)
Definition reads_before_cancel : list read :=
  reads_before_failure
  ++ [ {| aborted := true; value := frame sample_render Done |} ].

(** C3 at a stream whose read boundary falls inside a frame.  Both runs
    read the same text: a [sources] event, three [content] events and a
    [done] event.  Read frame by frame the callback gets the three deltas
    concatenated; with the boundary inside the second content frame the
    callback is still called once but the second delta is missing. *)
Theorem sendMessage_cut_frame_loses_delta :
  Sse.text_of (value <$> reads_cut_in_frame) =
    Sse.text_of (value <$> reads_by_frame) /\
  completions (sendMessage sample_decode (Body reads_by_frame Sse.EndOfStream))
    = [("The login handler is in a/Login.jsx",
        [{| path := "a/Login.jsx"; module_name := "a"; score := "0.91" |}])] /\
  completions
    (sendMessage sample_decode (Body reads_cut_in_frame Sse.EndOfStream))
    = [("The login in a/Login.jsx",
        [{| path := "a/Login.jsx"; module_name := "a"; score := "0.91" |}])].
Proof. split; [| split]; vm_compute; reflexivity. Qed.

(** The same text with the boundary inside the [done] frame: the callback
    is not called at all. *)
Definition reads_cut_in_done : list read :=
  [ {| aborted := false;
       value := Sse.text_of (frame sample_render
                               <$> [sample_sources; Content delta1])
                +:+ Js.slice_to 12 (frame sample_render Done) |};
    {| aborted := false;
       value := Js.slice_from 12 (frame sample_render Done) |} ].

Example sendMessage_cut_done_never_completes :
  completions
    (sendMessage sample_decode (Body reads_cut_in_done Sse.EndOfStream)) = [].
Proof. vm_compute. reflexivity. Qed.

(** C4 as stated fails: after three content frames and a failed read the
    hook does not hold the three deltas any more. *)
Lemma partial_content_not_retained :
  ~ partial_content_retained sample_decode reads_before_failure network_error
      initial_hook.
Proof. unfold partial_content_retained. vm_compute. discriminate. Qed.

(** The same after a cancellation. *)
Example partial_content_not_retained_on_cancel :
  ~ partial_content_retained sample_decode reads_before_cancel Sse.EndOfStream
      initial_hook.
Proof. unfold partial_content_retained. vm_compute. discriminate. Qed.

Lemma sendMessage_without_done_witness :
  (Done ∉ events_of_lines sample_decode (handled_lines reads_before_failure)) /\
  published (sendMessage sample_decode (Body reads_before_failure network_error))
    = [""; "The login "; "The login handler is ";
       "The login handler is in a/Login.jsx"; ""] /\
  completions
    (sendMessage sample_decode (Body reads_before_failure network_error)) = [].
Proof.
  assert (Hnd : Done ∉ events_of_lines sample_decode
                         (handled_lines reads_before_failure)).
  { vm_compute. intros H.
    repeat (apply elem_of_cons in H as [H|H]; [discriminate |]).
    by apply elem_of_nil in H. }
  split; [exact Hnd |].
  destruct (sendMessage_without_done source_ref sample_decode
              reads_before_failure network_error initial_hook Hnd)
    as (Hp & Hc & _).
  split; [| exact Hc].
  rewrite Hp. vm_compute. reflexivity.
Defined.

(** *** Cancellation, repeated [done] events and the error shown *)

Arguments SetError {source} e.
Arguments content {source} l.
Arguments sources {source} l.
Arguments error {source} h.
Arguments content_after {source} acc evs.
Arguments sources_after {source} l evs.

Section Attempts.

Context {source : Type}.
Variable decode : string -> option (event source).

Local Abbreviation read_loop := (read_loop source decode).
Local Abbreviation handle_lines := (handle_lines source decode).
Local Abbreviation handle_events := (handle_events source).
Local Abbreviation on_error := (on_error source).

(** The content and sources at each [done] event of a list of events,
    [acc] and [srcs] being those accumulated before. *)
Fixpoint done_snapshots (acc : string) (srcs : list source)
    (evs : list (event source)) : list (string * list source) :=
  match evs with
  | [] => []
  | Sources l :: rest => done_snapshots acc l rest
  | Content delta :: rest => done_snapshots (acc +:+ delta) srcs rest
  | Done :: rest => (acc, srcs) :: done_snapshots acc srcs rest
  | Other :: rest => done_snapshots acc srcs rest
  end.

(** The values passed to [setError], in order. *)
Definition errors (fxs : list (effect source)) : list (option string) :=
  omap (fun fx => match fx with
                  | SetError e => Some e
                  | _ => None
                  end) fxs.

(** Some read found the signal aborted. *)
Definition cancelled (reads : list read) : bool := existsb aborted reads.

(** The text [setError] is given for an error that is not an abort. *)
Definition shown_message (message : string) : string :=
  if String.eqb message "" then "请求失败" else message.

Lemma handle_events_snapshots evs st :
  completions (handle_events evs st).1 =
    done_snapshots (content st) (sources st) evs.
Proof.
  revert st. induction evs as [|ev evs IH]; intros st; [done |].
  simpl. destruct (handle_event source ev st) as [f0 s0] eqn:E0.
  specialize (IH s0).
  destruct (StreamingChat.handle_events source evs s0) as [f1 s1].
  simpl in *. unfold completions in *. rewrite omap_app, IH.
  destruct ev; inversion E0; subst; done.
Qed.

Lemma done_snapshots_app acc srcs evs1 evs2 :
  done_snapshots acc srcs (evs1 ++ evs2) =
    done_snapshots acc srcs evs1
    ++ done_snapshots (content_after acc evs1)
         (sources_after srcs evs1) evs2.
Proof.
  revert acc srcs. induction evs1 as [|ev evs1 IH]; intros acc srcs; [done |].
  destruct ev; simpl; by rewrite IH.
Qed.

Lemma completions_app (fxs1 fxs2 : list (effect source)) :
  completions (fxs1 ++ fxs2) = completions fxs1 ++ completions fxs2.
Proof. apply omap_app. Qed.

Lemma errors_app (fxs1 fxs2 : list (effect source)) :
  errors (fxs1 ++ fxs2) = errors fxs1 ++ errors fxs2.
Proof. apply omap_app. Qed.

Lemma read_loop_snapshots reads e st :
  completions (read_loop reads e st) =
    done_snapshots (content st) (sources st)
      (events_of_lines decode (handled_lines reads)).
Proof.
  revert st. induction reads as [|r reads IH]; intros st; simpl.
  - destruct e; [done | apply on_error_completions].
  - destruct (aborted r); [done |].
    rewrite events_of_lines_app, done_snapshots_app, handle_lines_events.
    pose proof (handle_events_snapshots
                  (events_of_lines decode (Js.split_nl (value r))) st) as Hc.
    pose proof (handle_events_locals source
                  (events_of_lines decode (Js.split_nl (value r))) st) as Hl.
    destruct (StreamingChat.handle_events source _ st) as [fx st'].
    simpl in Hc, Hl. rewrite completions_app, Hc, IH. by subst st'.
Qed.

Lemma read_loop_cancelled pre r rest e st :
  cancelled pre = false -> aborted r = true ->
  read_loop (pre ++ r :: rest) e st = read_loop pre Sse.EndOfStream st.
Proof.
  revert st. induction pre as [|r0 pre IH]; intros st Hpre Hr; simpl.
  - by rewrite Hr.
  - simpl in Hpre. apply orb_false_iff in Hpre as [H0 Hpre]. rewrite H0.
    destruct (StreamingChat.handle_lines source decode _ st) as [fx st'].
    by rewrite IH.
Qed.

Lemma handle_events_errors evs st : errors (handle_events evs st).1 = [].
Proof.
  revert st. induction evs as [|ev evs IH]; intros st; [done |].
  simpl. destruct (handle_event source ev st) as [f0 s0] eqn:E0.
  specialize (IH s0).
  destruct (StreamingChat.handle_events source evs s0) as [f1 s1].
  simpl in *. unfold errors in *. rewrite omap_app, IH.
  destruct ev; inversion E0; subst; done.
Qed.

Lemma read_loop_errors reads e st :
  errors (read_loop reads e st) =
    if cancelled reads then []
    else match e with
         | Sse.EndOfStream => []
         | Sse.ReadFails err => errors (on_error err)
         end.
Proof.
  revert st. induction reads as [|r reads IH]; intros st; simpl.
  - by destruct e.
  - destruct (aborted r); [done |]. simpl.
    rewrite handle_lines_events.
    pose proof (handle_events_errors
                  (events_of_lines decode (Js.split_nl (value r))) st) as He.
    destruct (StreamingChat.handle_events source _ st) as [fx st'].
    simpl in He. by rewrite errors_app, He, IH.
Qed.

Lemma error_after fxs (h : hook source) :
  error (run_effects fxs h) =
    default (error h) (last (errors fxs)).
Proof.
  revert h. induction fxs as [|fx fxs IH]; intros h; [done |].
  unfold run_effects in *. simpl. rewrite IH.
  destruct fx; simpl; try done.
  unfold errors. simpl. fold (errors fxs).
  rewrite last_cons. by destruct (last (errors fxs)).
Qed.

Lemma errors_on_error err :
  errors (on_error err) =
    if String.eqb (Sse.name err) "AbortError" then []
    else [Some (shown_message (Sse.message err))].
Proof.
  unfold StreamingChat.on_error, shown_message.
  destruct (String.eqb (Sse.name err) "AbortError"); [done |].
  simpl. unfold Js.or_else, Js.truthy.
  by destruct (String.eqb (Sse.message err) "").
Qed.

Lemma errors_sendMessage resp :
  errors (sendMessage decode resp) =
    None :: match resp with
            | FetchFails err => errors (on_error err)
            | NotOk detail status =>
                errors (on_error (Sse.not_ok_error detail status))
            | Body reads e =>
                errors (read_loop reads e {| content := ""; sources := [] |})
            end.
Proof.
  unfold sendMessage. rewrite !errors_app.
  change (errors (cleanup source)) with (@nil (option string)).
  rewrite (right_id_L [] (++)). by destruct resp.
Qed.

(** X10.  Cancelling looks like a clean end of the stream: once a read
    finds the signal aborted, that read is thrown away unhandled, nothing
    after it is read, and a failure the stream would have ended in goes
    unreported; the hook does exactly what it does when the stream ends
    after the reads before. *)
Theorem sendMessage_cancelled pre r rest e :
  cancelled pre = false ->
  aborted r = true ->
  sendMessage decode (Body (pre ++ r :: rest) e) =
    sendMessage decode (Body pre Sse.EndOfStream).
Proof.
  intros Hpre Hr. unfold sendMessage. by rewrite read_loop_cancelled.
Qed.

(** X11.  The completion callback is called once for every [done] event
    the hook handles, not once per stream: each call gets the content
    accumulated from the deltas before that event and the list of the
    last [sources] event before it, and deltas that follow a [done]
    event go on accumulating. *)
Theorem sendMessage_completes_per_done reads e :
  completions (sendMessage decode (Body reads e)) =
    done_snapshots "" [] (events_of_lines decode (handled_lines reads)).
Proof.
  unfold sendMessage. rewrite !completions_app.
  change (completions (cleanup source)) with (@nil (string * list source)).
  rewrite (right_id_L [] (++)). apply read_loop_snapshots.
Qed.

(** X12.  The error the hook shows after an attempt, whatever it showed
    before: none when the stream was read to its end, was cancelled, or
    failed with an [AbortError]; for a response that is not ok, its
    [detail] being absent or a string, that string when it is not empty
    and otherwise [HTTP] and the status, never the fallback text; for
    any other failure its message, or the fallback text when the message
    is empty. *)
Theorem sendMessage_error (h : hook source) :
  (forall reads e,
     cancelled reads = true \/ e = Sse.EndOfStream \/
     (exists err, e = Sse.ReadFails err /\ Sse.name err = "AbortError") ->
     error (run_effects (sendMessage decode (Body reads e)) h) = None) /\
  (forall detail status,
     error (run_effects (sendMessage decode (NotOk detail status)) h) =
       Some (if Js.truthy detail then default "" detail
             else Sse.http_status_message status)) /\
  (forall err,
     Sse.name err ≠ "AbortError" ->
     error (run_effects (sendMessage decode (FetchFails err)) h) =
       Some (shown_message (Sse.message err)) /\
     forall reads,
       cancelled reads = false ->
       error
         (run_effects (sendMessage decode (Body reads (Sse.ReadFails err))) h) =
         Some (shown_message (Sse.message err))).
Proof.
  split; [| split].
  - intros reads e Hcase.
    rewrite error_after, errors_sendMessage, read_loop_errors.
    destruct (cancelled reads); [done |].
    destruct Hcase as [Hc | [-> | (err & -> & Hn)]]; [done | done |].
    rewrite errors_on_error. apply String.eqb_eq in Hn. by rewrite Hn.
  - intros detail status.
    rewrite error_after, errors_sendMessage, errors_on_error. simpl.
    unfold shown_message, Js.or_else.
    destruct detail as [d|]; simpl; [| done].
    destruct (String.eqb d "") eqn:Ed; simpl; [done |]. by rewrite Ed.
  - intros err Hn. apply String.eqb_neq in Hn. split.
    + rewrite error_after, errors_sendMessage, errors_on_error. by rewrite Hn.
    + intros reads Hc.
      rewrite error_after, errors_sendMessage, read_loop_errors, Hc.
      rewrite errors_on_error. by rewrite Hn.
Qed.

End Attempts.

Lemma sendMessage_cancelled_witness :
  cancelled reads_before_failure = false /\
  aborted {| aborted := true; value := frame sample_render Done |} = true /\
  completions
    (sendMessage sample_decode (Body reads_before_cancel network_error)) = [].
Proof.
  split; [reflexivity |]. split; [reflexivity |].
  unfold reads_before_cancel.
  rewrite (sendMessage_cancelled sample_decode reads_before_failure
             {| aborted := true; value := frame sample_render Done |} []
             network_error eq_refl eq_refl).
  vm_compute. reflexivity.
Defined.

Lemma sendMessage_error_witness :
  Sse.name {| Sse.name := "TypeError"; Sse.message := "network error" |}
    ≠ "AbortError" /\
  cancelled reads_before_failure = false /\
  error
    (run_effects
       (sendMessage sample_decode (Body reads_before_failure network_error))
       initial_hook)
    = Some "network error".
Proof.
  split; [discriminate |]. split; [reflexivity |].
  destruct (sendMessage_error sample_decode initial_hook) as (_ & _ & Hfail).
  destruct (Hfail {| Sse.name := "TypeError"; Sse.message := "network error" |})
    as [_ Hread]; [discriminate |].
  exact (Hread reads_before_failure eq_refl).
Defined.

(** *** Reads that hold whole frames *)

Section WholeFrames.

Context {source : Type}.
Variable decode : string -> option (event source).
Variable render : event source -> string.

(** The server's text for the event is one line that decodes to it. *)
Definition well_rendered (ev : event source) : Prop :=
  decode (render ev) = Some ev /\ Js.split_nl (render ev) = [render ev].

Lemma split_nl_one_frame ev t :
  Js.split_nl (render ev) = [render ev] ->
  Js.split_nl (frame render ev +:+ t) =
    ("data: " +:+ render ev) :: "" :: Js.split_nl t.
Proof.
  intros Hr. unfold frame, Sse.two_newlines.
  rewrite !Js.app_assoc.
  change (String Js.nl (String Js.nl "") +:+ t)
    with (String Js.nl (String Js.nl t)).
  rewrite <- Js.app_assoc, Js.split_nl_tail_line; [done |].
  rewrite !Js.app_cons. change ("" +:+ render ev) with (render ev).
  simpl. by rewrite Hr.
Qed.

Lemma events_of_good_frames evs :
  Forall well_rendered evs ->
  events_of_lines decode (Js.split_nl (Sse.text_of (frame render <$> evs)))
    = evs.
Proof.
  induction evs as [|ev evs IH]; intros Hevs; [done |].
  apply Forall_cons in Hevs as [[Hd Hr] Hevs].
  rewrite fmap_cons, Sse.text_of_cons, split_nl_one_frame by done.
  rewrite !events_of_lines_cons, payload_data. simpl.
  by rewrite Hd, IH.
Qed.

Lemma read_loop_good_reads groups st :
  Forall (Forall well_rendered) groups ->
  read_loop source decode (whole_read render <$> groups) Sse.EndOfStream st =
    (handle_events source (concat groups) st).1.
Proof.
  revert st. induction groups as [|g groups IH]; intros st Hg; [done |].
  apply Forall_cons in Hg as [Hg Hgs].
  rewrite fmap_cons. cbn [StreamingChat.read_loop whole_read aborted value concat].
  rewrite handle_lines_events, events_of_good_frames, handle_events_app
    by done.
  destruct (handle_events source g st) as [fx st']. rewrite IH by done.
  by destruct (handle_events source (concat groups) st').
Qed.

(** X24.  When every read holds whole frames, however many, and each
    frame is one line that decodes to its event, the hook handles the
    events of the stream in order; for a stream of one [sources] event,
    any number of [content] events and a final [done] event it calls the
    completion callback once, with the deltas joined in order and the
    sources of the [sources] event. *)
Theorem sendMessage_on_whole_frames groups l deltas :
  Forall (Forall well_rendered) groups ->
  concat groups = Sources l :: (Content <$> deltas) ++ [Done] ->
  completions (sendMessage decode (Body (whole_read render <$> groups)
                                        Sse.EndOfStream))
    = [(Sse.text_of deltas, l)].
Proof.
  intros Hg Hevs. unfold sendMessage, completions. rewrite !omap_app.
  fold (completions (StreamingChat.read_loop source decode
                       (whole_read render <$> groups) Sse.EndOfStream
                       {| content := ""; sources := [] |})).
  rewrite read_loop_good_reads, Hevs by done. simpl.
  rewrite handle_events_app.
  destruct (handle_contents source deltas {| content := ""; sources := l |})
    as [Hc Hl].
  destruct (handle_events source (Content <$> deltas) _) as [fx st'].
  simpl in *. subst st'. simpl.
  unfold completions in *. rewrite omap_app, Hc. done.
Qed.

End WholeFrames.

Lemma sample_well_rendered :
  Forall (Forall (well_rendered sample_decode sample_render))
    [[sample_sources; Content delta1]; [Content delta2];
     [Content delta3; Done]].
Proof.
  repeat first [apply Forall_nil_2 | apply Forall_cons_2];
    split; vm_compute; reflexivity.
Qed.

Lemma sendMessage_on_whole_frames_witness :
  Forall (Forall (well_rendered sample_decode sample_render))
    [[sample_sources; Content delta1]; [Content delta2];
     [Content delta3; Done]] /\
  completions
    (sendMessage sample_decode
       (Body (whole_read sample_render
                <$> [[sample_sources; Content delta1]; [Content delta2];
                     [Content delta3; Done]])
             Sse.EndOfStream))
  = [("The login handler is in a/Login.jsx",
      [{| path := "a/Login.jsx"; module_name := "a"; score := "0.91" |}])].
Proof.
  split; [exact sample_well_rendered |].
  exact (sendMessage_on_whole_frames sample_decode sample_render
           [[sample_sources; Content delta1]; [Content delta2];
            [Content delta3; Done]]
           [{| path := "a/Login.jsx"; module_name := "a"; score := "0.91" |}]
           [delta1; delta2; delta3] sample_well_rendered eq_refl).
Defined.

End StreamingChat.

(** ** pages/TrainingPage.jsx and contexts/ProjectContext.jsx *)

Module Training.

(** The keys of [statusMap]. *)
Inductive index_status := Idle | Indexing | Indexed | Error.

Record project := {
  id : string;
  name : string;
  status : index_status;
  file_count : Z;
  index_size_bytes : Z;
}.

(** The object literal passed to [updateProjectInList]. *)
Record updates := {
  u_status : option index_status;
  u_file_count : option Z;
  u_index_size_bytes : option Z;
}.

(** [{ ...p, ...updates }]. *)
Definition merge (p : project) (u : updates) : project :=
  {| id := id p; name := name p;
     status := default (status p) (u_status u);
     file_count := default (file_count p) (u_file_count u);
     index_size_bytes := default (index_size_bytes p) (u_index_size_bytes u) |}.

(** [prev.map((p) => (p.id === projectId ? { ...p, ...updates } : p))]. *)
Definition updateProjectInList (projectId : string) (u : updates)
    (prev : list project) : list project :=
  (fun p => if String.eqb (id p) projectId then merge p u else p) <$> prev.

(** [projects.find((p) => p.id === projectId)?.status]. *)
Definition status_of (projectId : string) (projects : list project)
  : option index_status :=
  status <$> List.find (fun p => String.eqb (id p) projectId) projects.

(** What [startIndexing] reads off a parsed payload: [event.type] and,
    for [complete], [event.data.file_count] and
    [event.data.index_size_bytes].  A [complete] payload without [data]
    throws inside the inner [try] after [setIndexProgress] and behaves as
    [Progress]. *)
Inductive event :=
| Complete (file_count index_size_bytes : Z)
| Failed
| Progress.

(** State updates of the page, in program order.  [ScheduleRefresh] is
    the [setTimeout] of the [finally] block: a second later the list is
    loaded again from the server, which lies outside this model. *)
Inductive effect :=
| SetIndexingProjectId (p : option string)
| SetIndexProgress (ev : option event)
| UpdateProjectInList (projectId : string) (u : updates)
| ScheduleRefresh.

(** [fetch] rejects (or the response has no body), or the body is read. *)
Inductive response :=
| FetchFails
| Body (reads : list string) (e : Sse.ending).

Definition set_status (s : index_status) : updates :=
  {| u_status := Some s; u_file_count := None; u_index_size_bytes := None |}.

Section Reader.

(** [JSON.parse(line.slice(6))] and the field reads; [None] when
    [JSON.parse] throws. *)
Variable decode : string -> option event.

Variable projectId : string.

Definition handle_event (ev : event) : list effect :=
  SetIndexProgress (Some ev)
  :: match ev with
     | Complete fc sz =>
         [UpdateProjectInList projectId
            {| u_status := Some Indexed; u_file_count := Some fc;
               u_index_size_bytes := Some sz |}]
     | Failed => [UpdateProjectInList projectId (set_status Error)]
     | Progress => []
     end.

Definition handle_line (line : string) : list effect :=
  match Sse.payload line with
  | Some p =>
      match decode p with
      | Some ev => handle_event ev
      | None => []
      end
  | None => []
  end.

(** The [while (true)] loop: each read is cut into lines on its own. *)
Definition read_loop (reads : list string) : list effect :=
  reads ≫= (fun value => Js.split_nl value ≫= handle_line).

(** The [catch] block. *)
Definition on_failure : list effect :=
  [UpdateProjectInList projectId (set_status Error)].

Definition startIndexing (resp : response) : list effect :=
  [SetIndexingProjectId (Some projectId); SetIndexProgress (Some Progress);
   UpdateProjectInList projectId (set_status Indexing)]
  ++ match resp with
     | FetchFails => on_failure
     | Body reads e =>
         read_loop reads
         ++ match e with
            | Sse.EndOfStream => []
            | Sse.ReadFails _ => on_failure
            end
     end
  ++ [ScheduleRefresh].

(** The events of the lines the loop handles. *)
Definition events_of (reads : list string) : list event :=
  reads ≫= (fun value =>
    omap (fun line => Sse.payload line ≫= decode) (Js.split_nl value)).

End Reader.

(** The list of projects after each [updateProjectInList], the initial
    list first. *)
Fixpoint history (projects : list project) (fxs : list effect)
  : list (list project) :=
  match fxs with
  | [] => [projects]
  | UpdateProjectInList pid u :: rest =>
      projects :: history (updateProjectInList pid u projects) rest
  | _ :: rest => history projects rest
  end.

(** The successive statuses of one project. *)
Definition status_history (projectId : string) (projects : list project)
    (fxs : list effect) : list index_status :=
  omap (status_of projectId) (history projects fxs).

(** The edges of the state machine. *)
Definition transition (a b : index_status) : bool :=
  match a, b with
  | Idle, Indexing => true
  | Indexing, Indexed => true
  | Indexing, Error => true
  | Indexed, Indexing => true
  | Error, Indexing => true
  | _, _ => false
  end.

Definition status_eqb (a b : index_status) : bool :=
  match a, b with
  | Idle, Idle | Indexing, Indexing | Indexed, Indexed | Error, Error => true
  | _, _ => false
  end.

(** Every change of status in the sequence follows an edge. *)
Fixpoint moves_along_edges (l : list index_status) : bool :=
  match l with
  | a :: (b :: _) as rest =>
      (status_eqb a b || transition a b) && moves_along_edges rest
  | _ => true
  end.

(** The statuses written by a run, in order. *)
Definition statuses_written (projectId : string) (fxs : list effect)
  : list index_status :=
  omap (fun fx => match fx with
                  | UpdateProjectInList pid u =>
                      if String.eqb pid projectId then u_status u else None
                  | _ => None
                  end) fxs.

Section Facts.

Variable decode : string -> option event.

Variable projectId : string.

(** The status an event makes the page write, if any. *)
Definition outcome_of_event (ev : event) : option index_status :=
  match ev with
  | Complete _ _ => Some Indexed
  | Failed => Some Error
  | Progress => None
  end.

(** The statuses a response makes the page write after [Indexing]: one
    per [complete] or [error] event handled, and [Error] when the request
    or a read fails. *)
Definition outcomes (resp : response) : list index_status :=
  match resp with
  | FetchFails => [Error]
  | Body reads e =>
      omap outcome_of_event (events_of decode reads)
      ++ match e with
         | Sse.EndOfStream => []
         | Sse.ReadFails _ => [Error]
         end
  end.

Lemma statuses_written_app fxs1 fxs2 :
  statuses_written projectId (fxs1 ++ fxs2) =
    statuses_written projectId fxs1 ++ statuses_written projectId fxs2.
Proof. apply omap_app. Qed.

Lemma statuses_written_line line :
  statuses_written projectId (handle_line decode projectId line) =
    omap outcome_of_event
      (option_list (Sse.payload line ≫= decode)).
Proof.
  unfold handle_line. destruct (Sse.payload line) as [p|]; [| done].
  simpl. destruct (decode p) as [ev|]; [| done].
  destruct ev; simpl; by rewrite ?String.eqb_refl.
Qed.

Lemma statuses_written_lines lines :
  statuses_written projectId (lines ≫= handle_line decode projectId) =
    omap outcome_of_event
      (omap (fun line => Sse.payload line ≫= decode) lines).
Proof.
  induction lines as [|line lines IH]; [done |].
  rewrite bind_cons, statuses_written_app, statuses_written_line, IH.
  simpl. destruct (Sse.payload line ≫= decode) as [ev|]; [| done].
  simpl. by destruct (outcome_of_event ev).
Qed.

Lemma statuses_written_read_loop reads :
  statuses_written projectId (read_loop decode projectId reads) =
    omap outcome_of_event (events_of decode reads).
Proof.
  unfold read_loop, events_of.
  induction reads as [|v reads IH]; [done |].
  rewrite !bind_cons, statuses_written_app, omap_app, IH.
  by rewrite statuses_written_lines.
Qed.

Lemma statuses_written_startIndexing resp :
  statuses_written projectId (startIndexing decode projectId resp) =
    Indexing :: outcomes resp.
Proof.
  unfold startIndexing. rewrite !statuses_written_app.
  cbn [statuses_written omap list_omap set_status u_status].
  rewrite String.eqb_refl. simpl. f_equal.
  rewrite (right_id_L [] (++)).
  destruct resp as [|reads e]; simpl.
  - by rewrite String.eqb_refl.
  - rewrite statuses_written_app, statuses_written_read_loop.
    destruct e; simpl; by rewrite ?String.eqb_refl.
Qed.

(** Every update a run makes targets the project it was started for and
    carries a status. *)
Definition own_update (fx : effect) : Prop :=
  match fx with
  | UpdateProjectInList pid u => pid = projectId /\ is_Some (u_status u)
  | _ => True
  end.

Lemma own_updates_startIndexing resp :
  Forall own_update (startIndexing decode projectId resp).
Proof.
  assert (Hline : forall line,
            Forall own_update (handle_line decode projectId line)).
  { intros line. unfold handle_line.
    destruct (Sse.payload line) as [p|]; [| constructor].
    destruct (decode p) as [[fc sz| |]|]; repeat constructor; simpl; eauto. }
  assert (Hloop : forall reads,
            Forall own_update (read_loop decode projectId reads)).
  { intros reads. unfold read_loop.
    induction reads as [|v reads IH]; [constructor |].
    rewrite bind_cons. apply Forall_app. split; [| done].
    induction (Js.split_nl v) as [|line lines IHl]; [constructor |].
    rewrite bind_cons. apply Forall_app. split; [apply Hline | done]. }
  unfold startIndexing. repeat (apply Forall_app; split).
  - repeat constructor; simpl; eauto.
  - destruct resp as [|reads e]; [repeat constructor; simpl; eauto |].
    apply Forall_app. split; [apply Hloop |].
    destruct e; repeat constructor; simpl; eauto.
  - repeat constructor.
Qed.

Lemma merge_id p u : id (merge p u) = id p.
Proof. reflexivity. Qed.

Lemma status_of_update u projects :
  status_of projectId (updateProjectInList projectId u projects) =
    (fun s => default s (u_status u)) <$> status_of projectId projects.
Proof.
  unfold status_of, updateProjectInList.
  induction projects as [|p projects IH]; [done |].
  rewrite fmap_cons. simpl.
  destruct (String.eqb (id p) projectId) eqn:E; simpl.
  - by rewrite E.
  - by rewrite E.
Qed.

Lemma status_history_own projects fxs s0 :
  status_of projectId projects = Some s0 ->
  Forall own_update fxs ->
  status_history projectId projects fxs =
    s0 :: statuses_written projectId fxs.
Proof.
  unfold status_history.
  revert projects s0. induction fxs as [|fx fxs IH]; intros projects s0 H0 Hown.
  - simpl. by rewrite H0.
  - apply Forall_cons in Hown as [Hfx Hown].
    destruct fx as [p|ev|pid u|]; simpl; try (by apply IH).
    destruct Hfx as [-> [s Hs]].
    rewrite H0, String.eqb_refl, Hs. simpl. f_equal.
    apply IH; [| done].
    by rewrite status_of_update, H0, Hs.
Qed.

(** C2, amended.  A run of [startIndexing] for a listed project first
    writes [indexing]; after that it writes [indexed] once for every
    [complete] event it handles and [error] once for every [error] event
    it handles and once more when the request or a read fails, and writes
    nothing else.  So [indexed] is only ever reached through a [complete]
    event, [error] only through an [error] event or a failure, and
    [indexing] is never skipped.  When the response leads to at most one
    such outcome, every change of status follows one of the edges
    idle-indexing, indexing-indexed, indexing-error, indexed-indexing,
    error-indexing. *)
Theorem startIndexing_status_moves projects s0 resp :
  status_of projectId projects = Some s0 ->
  let h := status_history projectId projects
             (startIndexing decode projectId resp) in
  h = s0 :: Indexing :: outcomes resp /\
  (length (outcomes resp) <= 1 -> moves_along_edges h = true).
Proof.
  intros H0 h.
  assert (Hh : h = s0 :: Indexing :: outcomes resp).
  { unfold h. rewrite (status_history_own _ _ s0 H0).
    - by rewrite statuses_written_startIndexing.
    - apply own_updates_startIndexing. }
  split; [exact Hh |]. intros Hlen. rewrite Hh.
  assert (Hout : Forall (fun s => s = Indexed \/ s = Error) (outcomes resp)).
  { unfold outcomes.
    destruct resp as [|reads e]; [apply Forall_singleton; by right |].
    apply Forall_app. split.
    - induction (events_of decode reads) as [|ev evs IH]; [constructor |].
      destruct ev; simpl; [apply Forall_cons | apply Forall_cons |]; eauto.
    - destruct e; [constructor | apply Forall_singleton; by right]. }
  destruct (outcomes resp) as [|o [|o' os]]; simpl in Hlen; [| | lia].
  - by destruct s0.
  - apply Forall_cons in Hout as [[-> | ->] _]; by destruct s0.
Qed.

End Facts.

(** *** A sample index job *)

Definition complete_payload : string :=
  "{" +:+ Sse.member "type" (Sse.quote "complete") +:+ ", "
      +:+ Sse.member "data"
            ("{" +:+ Sse.member "file_count" "2" +:+ ", "
                 +:+ Sse.member "index_size_bytes" "4096" +:+ "}")
      +:+ "}".

Definition error_payload : string :=
  "{" +:+ Sse.member "type" (Sse.quote "error") +:+ ", "
      +:+ Sse.member "data"
            ("{" +:+ Sse.member "message" (Sse.quote "disk full") +:+ "}")
      +:+ "}".

Definition progress_payload : string :=
  "{" +:+ Sse.member "type" (Sse.quote "scan_start") +:+ ", "
      +:+ Sse.member "data"
            ("{" +:+ Sse.member "total" "2" +:+ "}")
      +:+ "}".

(** A decoder that agrees with [JSON.parse] on these three payloads. *)
Definition sample_decode (payload : string) : option event :=
  if String.eqb payload complete_payload then Some (Complete 2 4096)%Z
  else if String.eqb payload error_payload then Some Failed
  else if String.eqb payload progress_payload then Some Progress
  else None.

Definition frame (payload : string) : string :=
  "data: " +:+ payload +:+ Sse.two_newlines.

Definition sample_projects : list project :=
  [ {| id := "p1"; name := "shop"; status := Idle; file_count := 0%Z;
       index_size_bytes := 0%Z |};
    {| id := "p2"; name := "blog"; status := Indexed; file_count := 7%Z;
       index_size_bytes := 9000%Z |} ].

(** The job completes, then the connection breaks before the stream is
    closed. *)
Definition complete_then_reset : response :=
  Body [frame progress_payload; frame complete_payload]
       (Sse.ReadFails {| Sse.name := "TypeError";
                         Sse.message := "network error" |}).

(** C2 as stated fails: the run below takes the project from [indexed]
    straight to [error]. *)
Lemma startIndexing_leaves_edges :
  status_history "p1" sample_projects
    (startIndexing sample_decode "p1" complete_then_reset)
    = [Idle; Indexing; Indexed; Error] /\
  moves_along_edges
    (status_history "p1" sample_projects
       (startIndexing sample_decode "p1" complete_then_reset)) = false.
Proof. split; vm_compute; reflexivity. Qed.

(** The same when the stream carries an [error] event after a [complete]
    event. *)
Example startIndexing_two_terminal_events :
  status_history "p1" sample_projects
    (startIndexing sample_decode "p1"
       (Body [frame complete_payload; frame error_payload] Sse.EndOfStream))
    = [Idle; Indexing; Indexed; Error].
Proof. vm_compute. reflexivity. Qed.

Lemma startIndexing_status_moves_witness :
  status_of "p2" sample_projects = Some Indexed /\
  length (outcomes sample_decode
            (Body [frame progress_payload; frame complete_payload]
                  Sse.EndOfStream)) <= 1 /\
  status_history "p2" sample_projects
    (startIndexing sample_decode "p2"
       (Body [frame progress_payload; frame complete_payload]
             Sse.EndOfStream))
    = [Indexed; Indexing; Indexed] /\
  moves_along_edges
    (status_history "p2" sample_projects
       (startIndexing sample_decode "p2"
          (Body [frame progress_payload; frame complete_payload]
                Sse.EndOfStream))) = true.
Proof.
  assert (H0 : status_of "p2" sample_projects = Some Indexed) by reflexivity.
  assert (Hlen : length (outcomes sample_decode
            (Body [frame progress_payload; frame complete_payload]
                  Sse.EndOfStream)) <= 1) by (vm_compute; lia).
  destruct (startIndexing_status_moves sample_decode "p2" sample_projects
              Indexed
              (Body [frame progress_payload; frame complete_payload]
                    Sse.EndOfStream) H0) as [Hh Hm].
  split; [exact H0 |]. split; [exact Hlen |]. split.
  - rewrite Hh. vm_compute. reflexivity.
  - exact (Hm Hlen).
Defined.

(** *** The index button, the other projects and the final list *)

(** The index button of [ProjectCard]: what it offers and whether it is
    disabled; [None] when the card shows no such button.  [isIndexing]
    is [indexingProjectId === project.id]. *)
Inductive index_action := Reindex | StartIndex | Retry.

Definition index_button (s : index_status) (isIndexing : bool)
  : option (index_action * bool) :=
  match s with
  | Indexed => Some (Reindex, isIndexing)
  | Idle => Some (StartIndex, isIndexing)
  | Error => Some (Retry, isIndexing)
  | Indexing => None
  end.

(** Every two successive statuses are joined by an edge. *)
Fixpoint follows_edges (l : list index_status) : bool :=
  match l with
  | a :: (b :: _) as rest => transition a b && follows_edges rest
  | _ => true
  end.

(** The list of projects once all updates of a run are applied. *)
Definition apply_effect (projects : list project) (fx : effect)
  : list project :=
  match fx with
  | UpdateProjectInList pid u => updateProjectInList pid u projects
  | _ => projects
  end.

Definition after (projects : list project) (fxs : list effect)
  : list project :=
  foldl apply_effect projects fxs.

(** [complete] and [error] events end a job. *)
Definition is_terminal (ev : event) : bool :=
  match ev with
  | Progress => false
  | _ => true
  end.

Lemma updateProjectInList_ids pid u projects :
  id <$> updateProjectInList pid u projects = id <$> projects.
Proof.
  unfold updateProjectInList. rewrite <- list_fmap_compose.
  apply list_fmap_ext. intros i p _. simpl.
  by destruct (String.eqb (id p) pid).
Qed.

Lemma updateProjectInList_others pid u projects :
  List.filter (fun p => negb (String.eqb (id p) pid))
    (updateProjectInList pid u projects) =
  List.filter (fun p => negb (String.eqb (id p) pid)) projects.
Proof.
  unfold updateProjectInList.
  induction projects as [|p projects IH]; [done |].
  rewrite fmap_cons. simpl.
  destruct (String.eqb (id p) pid) eqn:E; simpl; rewrite E; simpl;
    by rewrite IH.
Qed.

Lemma updateProjectInList_absent pid u projects :
  pid ∉ id <$> projects -> updateProjectInList pid u projects = projects.
Proof.
  unfold updateProjectInList. intros Habs.
  induction projects as [|p projects IH]; [done |].
  rewrite fmap_cons in Habs. apply not_elem_of_cons in Habs as [Hp Habs].
  rewrite fmap_cons, IH by done.
  destruct (String.eqb (id p) pid) eqn:E; [| done].
  apply String.eqb_eq in E. congruence.
Qed.

Lemma updateProjectInList_status pid u projects s :
  status_of pid projects = Some s ->
  status_of pid (updateProjectInList pid u projects) =
    Some (default s (u_status u)).
Proof. intros H. by rewrite status_of_update, H. Qed.

(** X13.  [updateProjectInList] keeps the ids of the list in their
    order, leaves every project with another id as it is, does nothing
    at all when no project carries the id, and otherwise makes the
    project's status the one given, or keeps it when none is given. *)
Theorem updateProjectInList_frame pid u projects :
  id <$> updateProjectInList pid u projects = id <$> projects /\
  List.filter (fun p => negb (String.eqb (id p) pid))
    (updateProjectInList pid u projects) =
  List.filter (fun p => negb (String.eqb (id p) pid)) projects /\
  (pid ∉ id <$> projects -> updateProjectInList pid u projects = projects) /\
  (forall s, status_of pid projects = Some s ->
     status_of pid (updateProjectInList pid u projects) =
       Some (default s (u_status u))).
Proof.
  split; [apply updateProjectInList_ids |].
  split; [apply updateProjectInList_others |].
  split; [apply updateProjectInList_absent |].
  apply updateProjectInList_status.
Qed.

Section Page.

Variable decode : string -> option event.

Variable projectId : string.

Lemma history_frame projects fxs entry :
  Forall (own_update projectId) fxs ->
  entry ∈ history projects fxs ->
  id <$> entry = id <$> projects /\
  List.filter (fun p => negb (String.eqb (id p) projectId)) entry =
  List.filter (fun p => negb (String.eqb (id p) projectId)) projects.
Proof.
  revert projects. induction fxs as [|fx fxs IH]; intros projects Hown Hin.
  - simpl in Hin. apply list_elem_of_singleton in Hin as ->. done.
  - apply Forall_cons in Hown as [Hfx Hown].
    destruct fx as [p|ev|pid u|]; simpl in Hin; try (by apply IH).
    destruct Hfx as [-> _].
    apply elem_of_cons in Hin as [-> | Hin]; [done |].
    destruct (IH _ Hown Hin) as [Hids Hothers].
    by rewrite Hids, Hothers, updateProjectInList_ids,
         updateProjectInList_others.
Qed.

Lemma history_absent projects fxs entry :
  Forall (own_update projectId) fxs ->
  projectId ∉ id <$> projects ->
  entry ∈ history projects fxs -> entry = projects.
Proof.
  revert projects. induction fxs as [|fx fxs IH]; intros projects Hown Habs Hin.
  - simpl in Hin. by apply list_elem_of_singleton in Hin.
  - apply Forall_cons in Hown as [Hfx Hown].
    destruct fx as [p|ev|pid u|]; simpl in Hin; try (by apply IH).
    destruct Hfx as [-> _].
    apply elem_of_cons in Hin as [-> | Hin]; [done |].
    rewrite updateProjectInList_absent in Hin by done. by apply IH.
Qed.

(** X14.  A run of [startIndexing] touches no project but its own: at
    every moment of the run the list holds the same ids in the same
    order and every project with another id is as it was; when the list
    does not hold the project, as right after its creation, the run
    leaves the list unchanged throughout. *)
Theorem startIndexing_frame projects resp entry :
  entry ∈ history projects (startIndexing decode projectId resp) ->
  id <$> entry = id <$> projects /\
  List.filter (fun p => negb (String.eqb (id p) projectId)) entry =
  List.filter (fun p => negb (String.eqb (id p) projectId)) projects /\
  (projectId ∉ id <$> projects -> entry = projects).
Proof.
  intros Hin.
  pose proof (own_updates_startIndexing decode projectId resp) as Hown.
  destruct (history_frame _ _ _ Hown Hin) as [Hids Hothers].
  split; [done |]. split; [done |].
  intros Habs. by eapply history_absent.
Qed.

(** X15.  The card offers to index exactly from the statuses that have
    an edge to [indexing], so never while the project is indexing; and a
    run started from there that meets at most one outcome makes real
    moves only: each status in its history differs from the one before
    and is joined to it by an edge. *)
Theorem index_button_starts_on_an_edge s isIndexing projects resp :
  (is_Some (index_button s isIndexing) <-> transition s Indexing = true) /\
  (is_Some (index_button s isIndexing) ->
   status_of projectId projects = Some s ->
   length (outcomes decode resp) <= 1 ->
   follows_edges
     (status_history projectId projects
        (startIndexing decode projectId resp)) = true).
Proof.
  split.
  - destruct s; simpl; split; intros H; eauto; try discriminate;
      by destruct H.
  - intros Hbtn H0 Hlen.
    rewrite (status_history_own _ _ _ s H0)
      by apply own_updates_startIndexing.
    rewrite statuses_written_startIndexing.
    assert (Hout : Forall (fun o => o = Indexed \/ o = Error)
                     (outcomes decode resp)).
    { unfold outcomes.
      destruct resp as [|reads e]; [apply Forall_singleton; by right |].
      apply Forall_app. split.
      - induction (events_of decode reads) as [|ev evs IH]; [constructor |].
        destruct ev; simpl; [apply Forall_cons | apply Forall_cons |]; eauto.
      - destruct e; [constructor | apply Forall_singleton; by right]. }
    destruct (outcomes decode resp) as [|o [|o' os]]; simpl in Hlen; [| | lia].
    + destruct s; try done. by destruct Hbtn.
    + apply Forall_cons in Hout as [[-> | ->] _];
        destruct s; try done; by destruct Hbtn.
Qed.

Lemma after_app projects fxs1 fxs2 :
  after projects (fxs1 ++ fxs2) = after (after projects fxs1) fxs2.
Proof. apply foldl_app. Qed.

(** The update an event makes the page apply, if any. *)
Definition update_of_event (ev : event) : option updates :=
  match ev with
  | Complete fc sz =>
      Some {| u_status := Some Indexed; u_file_count := Some fc;
              u_index_size_bytes := Some sz |}
  | Failed => Some (set_status Error)
  | Progress => None
  end.

Definition apply_updates (projects : list project) (us : list updates)
  : list project :=
  foldl (fun ps u => updateProjectInList projectId u ps) projects us.

Lemma after_line projects line :
  after projects (handle_line decode projectId line) =
    apply_updates projects
      (omap update_of_event (option_list (Sse.payload line ≫= decode))).
Proof.
  unfold handle_line. destruct (Sse.payload line) as [p|]; [| done].
  simpl. destruct (decode p) as [[fc sz| |]|]; done.
Qed.

Lemma apply_updates_app projects us1 us2 :
  apply_updates projects (us1 ++ us2) =
    apply_updates (apply_updates projects us1) us2.
Proof. apply foldl_app. Qed.

Lemma after_lines projects lines :
  after projects (lines ≫= handle_line decode projectId) =
    apply_updates projects
      (omap update_of_event
         (omap (fun line => Sse.payload line ≫= decode) lines)).
Proof.
  revert projects. induction lines as [|line lines IH]; intros projects;
    [done |].
  rewrite bind_cons, after_app, after_line, IH.
  simpl. destruct (Sse.payload line ≫= decode) as [ev|]; [| done].
  simpl. by destruct (update_of_event ev).
Qed.

Lemma after_read_loop projects reads :
  after projects (read_loop decode projectId reads) =
    apply_updates projects (omap update_of_event (events_of decode reads)).
Proof.
  unfold read_loop, events_of. revert projects.
  induction reads as [|v reads IH]; intros projects; [done |].
  rewrite !bind_cons, after_app, omap_app, apply_updates_app, IH.
  by rewrite after_lines.
Qed.

Lemma omap_update_terminal evs :
  omap update_of_event evs =
    omap update_of_event (List.filter is_terminal evs).
Proof.
  induction evs as [|ev evs IH]; [done |].
  destruct ev; simpl;
    [apply (f_equal (cons _)); exact IH | apply (f_equal (cons _)); exact IH
    | exact IH].
Qed.

(** X16.  When the stream is read to its end and the only terminal event
    handled is one [complete] event, the run leaves the list as it was
    but for its own project, which is [indexed] and carries the file
    count and the index size of that event. *)
Theorem startIndexing_completes projects reads fc sz :
  List.filter is_terminal (events_of decode reads) = [Complete fc sz] ->
  after projects (startIndexing decode projectId (Body reads Sse.EndOfStream)) =
    updateProjectInList projectId
      {| u_status := Some Indexed; u_file_count := Some fc;
         u_index_size_bytes := Some sz |} projects.
Proof.
  intros Hterm. unfold startIndexing.
  rewrite !after_app, after_read_loop.
  rewrite omap_update_terminal, Hterm. simpl.
  unfold updateProjectInList. rewrite <- list_fmap_compose.
  apply list_fmap_ext. intros i p _. simpl.
  destruct (String.eqb (id p) projectId) eqn:E; [| by rewrite E].
  simpl. by rewrite E.
Qed.

End Page.

Lemma updateProjectInList_frame_witness :
  ("p9" ∉ id <$> sample_projects) /\
  updateProjectInList "p9" (set_status Indexing) sample_projects
    = sample_projects /\
  status_of "p1" sample_projects = Some Idle /\
  status_of "p1" (updateProjectInList "p1" (set_status Indexing) sample_projects)
    = Some Indexing.
Proof.
  assert (Habs : "p9" ∉ id <$> sample_projects).
  { simpl. intros H.
    repeat (apply elem_of_cons in H as [H|H]; [discriminate |]).
    by apply elem_of_nil in H. }
  destruct (updateProjectInList_frame "p9" (set_status Indexing)
              sample_projects) as (_ & _ & Hno & _).
  destruct (updateProjectInList_frame "p1" (set_status Indexing)
              sample_projects) as (_ & _ & _ & Hst).
  split; [exact Habs |]. split; [exact (Hno Habs) |].
  split; [reflexivity |]. exact (Hst Idle eq_refl).
Defined.

Lemma startIndexing_frame_witness :
  [ {| id := "p1"; name := "shop"; status := Indexing; file_count := 0%Z;
       index_size_bytes := 0%Z |};
    {| id := "p2"; name := "blog"; status := Indexed; file_count := 7%Z;
       index_size_bytes := 9000%Z |} ]
    ∈ history sample_projects
        (startIndexing sample_decode "p1" complete_then_reset) /\
  List.filter (fun p => negb (String.eqb (id p) "p1"))
    [ {| id := "p1"; name := "shop"; status := Indexing; file_count := 0%Z;
         index_size_bytes := 0%Z |};
      {| id := "p2"; name := "blog"; status := Indexed; file_count := 7%Z;
         index_size_bytes := 9000%Z |} ]
  = List.filter (fun p => negb (String.eqb (id p) "p1")) sample_projects.
Proof.
  assert (Hin :
    [ {| id := "p1"; name := "shop"; status := Indexing; file_count := 0%Z;
         index_size_bytes := 0%Z |};
      {| id := "p2"; name := "blog"; status := Indexed; file_count := 7%Z;
         index_size_bytes := 9000%Z |} ]
      ∈ history sample_projects
          (startIndexing sample_decode "p1" complete_then_reset)).
  { vm_compute. apply list_elem_of_further, list_elem_of_here. }
  split; [exact Hin |].
  exact (proj1 (proj2 (startIndexing_frame sample_decode "p1" sample_projects
                         complete_then_reset _ Hin))).
Defined.

Lemma index_button_starts_on_an_edge_witness :
  is_Some (index_button Indexed false) /\
  status_of "p2" sample_projects = Some Indexed /\
  length (outcomes sample_decode
            (Body [frame progress_payload; frame complete_payload]
                  Sse.EndOfStream)) <= 1 /\
  follows_edges
    (status_history "p2" sample_projects
       (startIndexing sample_decode "p2"
          (Body [frame progress_payload; frame complete_payload]
                Sse.EndOfStream))) = true.
Proof.
  assert (Hbtn : is_Some (index_button Indexed false)) by (by eexists).
  assert (Hlen : length (outcomes sample_decode
            (Body [frame progress_payload; frame complete_payload]
                  Sse.EndOfStream)) <= 1) by (vm_compute; lia).
  split; [exact Hbtn |]. split; [reflexivity |]. split; [exact Hlen |].
  exact (proj2 (index_button_starts_on_an_edge sample_decode "p2" Indexed
                  false sample_projects
                  (Body [frame progress_payload; frame complete_payload]
                        Sse.EndOfStream)) Hbtn eq_refl Hlen).
Defined.

Lemma startIndexing_completes_witness :
  List.filter is_terminal
    (events_of sample_decode [frame progress_payload; frame complete_payload])
    = [Complete 2 4096] /\
  after sample_projects
    (startIndexing sample_decode "p1"
       (Body [frame progress_payload; frame complete_payload] Sse.EndOfStream))
  = [ {| id := "p1"; name := "shop"; status := Indexed; file_count := 2%Z;
         index_size_bytes := 4096%Z |};
      {| id := "p2"; name := "blog"; status := Indexed; file_count := 7%Z;
         index_size_bytes := 9000%Z |} ].
Proof.
  assert (Hterm : List.filter is_terminal
            (events_of sample_decode
               [frame progress_payload; frame complete_payload])
          = [Complete 2 4096]) by (vm_compute; reflexivity).
  split; [exact Hterm |].
  rewrite (startIndexing_completes sample_decode "p1" sample_projects
             [frame progress_payload; frame complete_payload] 2 4096 Hterm).
  vm_compute. reflexivity.
Defined.

End Training.

(** ** api/client.js and pages/ChatPage.jsx *)

Module Client.

(** The JSON body of [POST /ask/stream]. *)
Record ask_body := {
  project_id : option string;
  question : string;
  top_k : Z;
}.

(** [chatApi.askStream(projectId, question, topK = 50)]; [None] is an
    argument left out or [undefined]. *)
Definition askStream (projectId : option string) (question : string)
    (topK : option Z) : ask_body :=
  {| project_id := projectId; question := question;
     top_k := default 50%Z topK |}.

(** The call made by [sendMessage]: [chatApi.askStream(projectId, question)]. *)
Definition sendMessage_request (projectId : option string)
    (question : string) : ask_body :=
  askStream projectId question None.

(** [projects.filter(p => p.status === 'indexed')] of [SidebarContent]. *)
Definition indexedProjects (projects : list Training.project)
  : list Training.project :=
  List.filter (fun p => Training.status_eqb (Training.status p) Training.Indexed)
    projects.

(** The [options] of the project selector: value and label. *)
Definition selector_options (projects : list Training.project)
  : list (string * string) :=
  (fun p => (Training.id p,
             Training.name p +:+ " ("
               +:+ NilEmpty.string_of_int (Z.to_int (Training.file_count p))
               +:+ " 文件)"))
    <$> indexedProjects projects.

(** [projects.find((p) => p.id === selectedProjectId)]. *)
Definition selectedProject (projects : list Training.project)
    (selectedProjectId : option string) : option Training.project :=
  match selectedProjectId with
  | Some sel => List.find (fun p => String.eqb (Training.id p) sel) projects
  | None => None
  end.

(** [!!selectedProjectId && selectedProject?.status === 'indexed']. *)
Definition canSend (projects : list Training.project)
    (selectedProjectId : option string) : bool :=
  Js.truthy selectedProjectId
  && match selectedProject projects selectedProjectId with
     | Some p => Training.status_eqb (Training.status p) Training.Indexed
     | None => false
     end.

(** [handleSend]: the request handed to [sendMessage], if any.  [question]
    is the argument, [input] the trimmed text of the input box; the
    conversation bookkeeping done before the call is in [ChatContext]. *)
Definition handleSend (projects : list Training.project)
    (selectedProjectId : option string)
    (question : option string) (input : string) : option ask_body :=
  match Js.or_else question (Some input) with
  | Some q =>
      if negb (Js.truthy (Some q)) || negb (canSend projects selectedProjectId)
      then None
      else Some (sendMessage_request selectedProjectId q)
  | None => None
  end.

(** The send button: [disabled={!canSend || !input.trim()}]. *)
Definition send_disabled (projects : list Training.project)
    (selectedProjectId : option string) (input : string) : bool :=
  negb (canSend projects selectedProjectId) || negb (Js.truthy (Some input)).

Lemma status_eqb_eq a b : Training.status_eqb a b = true <-> a = b.
Proof. destruct a, b; simpl; split; congruence. Qed.

Lemma indexedProjects_indexed projects p :
  p ∈ indexedProjects projects ->
  p ∈ projects /\ Training.status p = Training.Indexed.
Proof.
  unfold indexedProjects. rewrite !list_elem_of_In, filter_In.
  intros [Hin Hst]. split; [done |]. by apply status_eqb_eq.
Qed.

Lemma canSend_indexed projects sel :
  canSend projects sel = true ->
  exists p, selectedProject projects sel = Some p /\
            Some (Training.id p) = sel /\
            Training.status p = Training.Indexed.
Proof.
  unfold canSend. intros [Htr Hst]%andb_true_iff.
  destruct (selectedProject projects sel) as [p|] eqn:Ep; [| done].
  exists p. split; [done |]. split; [| by apply status_eqb_eq].
  unfold selectedProject in Ep. destruct sel as [s|]; [| done].
  apply find_some in Ep as [_ Hid]. apply String.eqb_eq in Hid. by rewrite Hid.
Qed.

Lemma handleSend_gate projects sel question input req :
  handleSend projects sel question input = Some req ->
  canSend projects sel = true /\ project_id req = sel /\ top_k req = 50%Z.
Proof.
  unfold handleSend. destruct (Js.or_else question (Some input)) as [q|]; [| done].
  destruct (canSend projects sel); simpl.
  - rewrite orb_false_r. destruct (negb _); [done |]. by intros [= <-].
  - by rewrite orb_true_r.
Qed.

(** *** The selector, the question and the conversation of [handleSend] *)

Lemma find_by_id projects p :
  NoDup (Training.id <$> projects) ->
  p ∈ projects ->
  List.find (fun q => String.eqb (Training.id q) (Training.id p)) projects
    = Some p.
Proof.
  induction projects as [|q projects IH]; intros Hnd Hin;
    [by apply elem_of_nil in Hin |].
  rewrite fmap_cons in Hnd. apply NoDup_cons in Hnd as [Hq Hnd].
  simpl. apply elem_of_cons in Hin as [-> | Hin].
  - by rewrite String.eqb_refl.
  - destruct (String.eqb (Training.id q) (Training.id p)) eqn:E.
    + apply String.eqb_eq in E. exfalso. apply Hq. rewrite E.
      apply list_elem_of_fmap. eauto.
    + by apply IH.
Qed.

(** X17.  Whatever the selector offers can be asked: when the ids of the
    listed projects are distinct, choosing an option whose value is not
    the empty string enables sending, the selected project being the
    indexed project the option stands for. *)
Theorem selector_option_enables_sending projects value label :
  NoDup (Training.id <$> projects) ->
  (value, label) ∈ selector_options projects ->
  value ≠ "" ->
  canSend projects (Some value) = true /\
  exists p, selectedProject projects (Some value) = Some p /\
            Training.id p = value /\
            Training.status p = Training.Indexed.
Proof.
  intros Hnd Hin Hne. unfold selector_options in Hin.
  apply list_elem_of_fmap in Hin as (p & Heq & Hp).
  apply indexedProjects_indexed in Hp as [Hp Hst].
  injection Heq as -> _.
  assert (Hsel : selectedProject projects (Some (Training.id p)) = Some p)
    by (by apply find_by_id).
  split; [| by exists p].
  unfold canSend. rewrite Hsel, Hst. simpl.
  rewrite andb_true_r. by apply Js.truthy_Some.
Qed.

(** X18.  [handleSend] never sends an empty question: the question of a
    request it issues is the argument when that is a non-empty string
    and the (trimmed) input otherwise, and it is not empty; with neither
    a question nor input nothing is sent, whatever project is
    selected. *)
Theorem handleSend_question projects sel question input :
  (forall req,
     handleSend projects sel question input = Some req ->
     Client.question req ≠ "" /\
     Client.question req =
       (if Js.truthy question then default "" question else input)) /\
  (Js.truthy question = false -> input = "" ->
   handleSend projects sel question input = None).
Proof.
  unfold handleSend, Js.or_else. split.
  - intros req. destruct (Js.truthy question) eqn:Hq.
    + destruct question as [q|]; [| done]. simpl in *.
      rewrite Hq. simpl. destruct (canSend projects sel); [| done].
      simpl. intros [= <-]. simpl. split; [| done].
      apply negb_true_iff, String.eqb_neq in Hq. done.
    + destruct (Js.truthy (Some input)) eqn:Hi; simpl; [| done].
      destruct (canSend projects sel); [| done]. simpl.
      intros [= <-]. simpl. split; [| done].
      apply negb_true_iff, String.eqb_neq in Hi. done.
  - intros Hq ->. by rewrite Hq.
Qed.

Definition user_message (q : string) : ChatContext.message :=
  {| ChatContext.role := "user"; ChatContext.content := q;
     ChatContext.sources := None |}.

Definition assistant_message (answer : string) (srcs : list string)
  : ChatContext.message :=
  {| ChatContext.role := "assistant"; ChatContext.content := answer;
     ChatContext.sources := Some srcs |}.

(** The bookkeeping of [handleSend] once the gate is passed and before
    [sendMessage] is called: create a conversation when none is current,
    add the question, and title the conversation when it showed no
    message at render time.  [now] and [iso] are the clock readings
    [createConversation] takes.  The state updates are functional
    ([prev => ...]), so they apply in the order made; the conversation id
    is passed on explicitly, which is what [addMessage] and
    [updateConversationTitle] use whenever it is a non-empty string. *)
Definition handleSend_store (sel : option string) (q now iso : string)
    (st : ChatContext.state) : option string * ChatContext.state :=
  let shown :=
    match ChatContext.currentConversation sel st with
    | Some c => ChatContext.messages c
    | None => []
    end in
  let '(convId, st1) :=
    if Js.truthy (ChatContext.currentConversationId st)
    then (ChatContext.currentConversationId st, st)
    else
      let '(c, st') := ChatContext.createConversation sel now iso st in
      (ChatContext.id <$> c, st') in
  let st2 := ChatContext.addMessage sel (user_message q) convId st1 in
  let st3 :=
    if (length shown =? 0)%nat
    then ChatContext.updateConversationTitle sel q convId st2
    else st2 in
  (convId, st3).

(** The callback [handleSend] gives to [sendMessage]. *)
Definition handleSend_complete (sel convId : option string)
    (answer : string) (srcs : list string) (st : ChatContext.state)
  : ChatContext.state :=
  ChatContext.addMessage sel (assistant_message answer srcs) convId st.

(** X19.  Asking a first question with no conversation current: once the
    answer has come, the project's list starts with a new conversation
    that carries the new id, the question cut to a title, and exactly the
    question and the answer as messages, followed by the older
    conversations unchanged, and that conversation is current.  This
    needs the new id to be non-empty and not carried by an older
    conversation of the project. *)
Theorem first_question_conversation sel q now iso answer srcs st :
  Js.truthy (Some sel) = true ->
  ChatContext.currentConversationId st = None ->
  now ≠ "" ->
  (forall c, c ∈ ChatContext.conversations (Some sel) st ->
             ChatContext.id c ≠ now) ->
  let '(convId, st') := handleSend_store (Some sel) q now iso st in
  let st'' := handleSend_complete (Some sel) convId answer srcs st' in
  convId = Some now /\
  ChatContext.conversations (Some sel) st'' =
    {| ChatContext.id := now;
       ChatContext.title := ChatContext.trim_title q;
       ChatContext.messages :=
         [user_message q; assistant_message answer srcs];
       ChatContext.createdAt := iso |}
    :: ChatContext.conversations (Some sel) st /\
  ChatContext.currentConversationId st'' = Some now.
Proof.
  intros Hsel Hcur Hnow Hfresh.
  assert (Htr : Js.truthy (Some now) = true) by (by apply Js.truthy_Some).
  assert (Hshown : ChatContext.currentConversation (Some sel) st = None)
    by (unfold ChatContext.currentConversation; by rewrite Hcur).
  unfold handleSend_store, handleSend_complete.
  rewrite Hshown, Hcur, ChatContext.createConversation_run by done.
  cbn [Js.truthy fmap option_fmap option_map ChatContext.id length Nat.eqb].
  assert (Hor : forall b, Js.or_else (Some now) b = Some now)
    by (intros b; unfold Js.or_else; by rewrite Htr).
  rewrite (ChatContext.addMessage_run sel now _ _ _ Hsel (Hor _) Htr).
  rewrite (ChatContext.updateConversationTitle_run sel now _ _ _ Hsel
             (Hor _) Htr).
  rewrite (ChatContext.addMessage_run sel now _ _ _ Hsel (Hor _) Htr).
  cbn [ChatContext.conversationsByProject ChatContext.currentConversationId].
  rewrite !ChatContext.conversations_of_insert, !insert_insert_eq.
  split; [done |]. split; [| done].
  rewrite !ChatContext.conversations_Some.
  cbn [ChatContext.conversationsByProject].
  rewrite ChatContext.conversations_of_insert.
  rewrite !fmap_cons.
  rewrite (ChatContext.append_to_other now (user_message q)) by exact Hfresh.
  rewrite (ChatContext.retitle_other_all now) by exact Hfresh.
  rewrite (ChatContext.append_to_other now) by exact Hfresh.
  f_equal. unfold ChatContext.append_to, ChatContext.retitle. simpl.
  by rewrite !String.eqb_refl.
Qed.

Lemma selector_option_enables_sending_witness :
  NoDup (Training.id <$> Training.sample_projects) /\
  ("p2", "blog (7 文件)") ∈ selector_options Training.sample_projects /\
  "p2" ≠ "" /\
  canSend Training.sample_projects (Some "p2") = true.
Proof.
  assert (Hnd : NoDup (Training.id <$> Training.sample_projects)).
  { simpl. apply NoDup_cons. split.
    - intros H. apply list_elem_of_singleton in H. discriminate.
    - apply NoDup_singleton. }
  assert (Hin : ("p2", "blog (7 文件)")
                ∈ selector_options Training.sample_projects).
  { vm_compute. apply list_elem_of_here. }
  split; [exact Hnd |]. split; [exact Hin |]. split; [discriminate |].
  exact (proj1 (selector_option_enables_sending Training.sample_projects
                  "p2" "blog (7 文件)" Hnd Hin ltac:(discriminate))).
Defined.

Lemma handleSend_question_witness :
  handleSend Training.sample_projects (Some "p2") None
    "where is the login code"
    = Some (askStream (Some "p2") "where is the login code" None) /\
  Client.question (askStream (Some "p2") "where is the login code" None) ≠ "".
Proof.
  assert (Hreq : handleSend Training.sample_projects (Some "p2") None
                   "where is the login code"
                 = Some (askStream (Some "p2") "where is the login code" None))
    by reflexivity.
  split; [exact Hreq |].
  exact (proj1 (proj1 (handleSend_question Training.sample_projects
                         (Some "p2") None "where is the login code") _ Hreq)).
Defined.

Definition empty_store : ChatContext.state :=
  {| ChatContext.conversationsByProject := ∅;
     ChatContext.currentConversationId := None |}.

Lemma first_question_conversation_witness :
  Js.truthy (Some "p2") = true /\
  ChatContext.currentConversationId empty_store = None /\
  "1700000000009" ≠ "" /\
  ChatContext.title <$>
    ChatContext.conversations (Some "p2")
      (handleSend_complete (Some "p2")
         (handleSend_store (Some "p2")
            "how does the login handler validate tokens" "1700000000009"
            "2024-01-09T00:00:00.000Z" empty_store).1
         "see a/Login.jsx" ["a/Login.jsx"]
         (handleSend_store (Some "p2")
            "how does the login handler validate tokens" "1700000000009"
            "2024-01-09T00:00:00.000Z" empty_store).2)
  = ["how does the login handler val..."].
Proof.
  split; [reflexivity |]. split; [reflexivity |]. split; [discriminate |].
  assert (Hfresh : forall c,
            c ∈ ChatContext.conversations (Some "p2") empty_store ->
            ChatContext.id c ≠ "1700000000009").
  { intros c Hc. by apply elem_of_nil in Hc. }
  pose proof (first_question_conversation "p2"
                "how does the login handler validate tokens" "1700000000009"
                "2024-01-09T00:00:00.000Z" "see a/Login.jsx" ["a/Login.jsx"]
                empty_store eq_refl eq_refl ltac:(discriminate) Hfresh) as H.
  destruct (handleSend_store (Some "p2") _ _ _ empty_store) as [convId st'].
  destruct H as (_ & Hlist & _). cbn [fst snd]. rewrite Hlist.
  vm_compute. reflexivity.
Defined.

(** X20.  A follow-up question in a conversation that already shows
    messages leaves every title alone: once the answer has come, the
    conversations carrying the current id have the question and the
    answer added after their messages, in that order, and nothing else
    in the project's list has changed. *)
Theorem follow_up_keeps_title sel q now iso answer srcs st cur c :
  Js.truthy (Some sel) = true ->
  ChatContext.currentConversationId st = Some cur ->
  cur ≠ "" ->
  ChatContext.currentConversation (Some sel) st = Some c ->
  ChatContext.messages c ≠ [] ->
  let '(convId, st') := handleSend_store (Some sel) q now iso st in
  let st'' := handleSend_complete (Some sel) convId answer srcs st' in
  convId = Some cur /\
  ChatContext.conversations (Some sel) st'' =
    (fun c => if decide (ChatContext.id c = cur)
              then {| ChatContext.id := ChatContext.id c;
                      ChatContext.title := ChatContext.title c;
                      ChatContext.messages :=
                        ChatContext.messages c
                        ++ [user_message q; assistant_message answer srcs];
                      ChatContext.createdAt := ChatContext.createdAt c |}
              else c) <$> ChatContext.conversations (Some sel) st /\
  ChatContext.currentConversationId st'' = Some cur.
Proof.
  intros Hsel Hcur Hne Hshown Hmsgs.
  assert (Htr : Js.truthy (Some cur) = true) by (by apply Js.truthy_Some).
  assert (Hor : forall b, Js.or_else (Some cur) b = Some cur)
    by (intros b; unfold Js.or_else; by rewrite Htr).
  unfold handleSend_store, handleSend_complete.
  rewrite Hshown, Hcur, Htr.
  destruct (ChatContext.messages c) as [|m0 ms] eqn:Em; [done |].
  cbn [length Nat.eqb].
  rewrite (ChatContext.addMessage_run sel cur _ _ _ Hsel (Hor _) Htr).
  rewrite (ChatContext.addMessage_run sel cur _ _ _ Hsel (Hor _) Htr).
  cbn [ChatContext.conversationsByProject ChatContext.currentConversationId].
  rewrite !ChatContext.conversations_of_insert, !insert_insert_eq.
  split; [done |]. split; [| done].
  rewrite !ChatContext.conversations_Some.
  cbn [ChatContext.conversationsByProject].
  rewrite ChatContext.conversations_of_insert, <- list_fmap_compose.
  apply list_fmap_ext. intros i c' _. simpl.
  unfold ChatContext.append_to, ChatContext.with_message.
  case_decide as Hid.
  - apply String.eqb_eq in Hid. rewrite Hid. simpl. rewrite Hid.
    by rewrite <- (assoc_L (++)).
  - apply String.eqb_neq in Hid. rewrite Hid. by rewrite Hid.
Qed.

Lemma follow_up_keeps_title_witness :
  Js.truthy (Some "proj") = true /\
  ChatContext.messages
    <$> ChatContext.conversations (Some "proj")
          (handleSend_complete (Some "proj")
             (handleSend_store (Some "proj") "and the logout code"
                "1700000000009" "2024-01-09T00:00:00.000Z"
                (ChatContext.addMessage (Some "proj") ChatContext.hello None
                   ChatContext.sample_state)).1
             "see b/Logout.jsx" ["b/Logout.jsx"]
             (handleSend_store (Some "proj") "and the logout code"
                "1700000000009" "2024-01-09T00:00:00.000Z"
                (ChatContext.addMessage (Some "proj") ChatContext.hello None
                   ChatContext.sample_state)).2)
  = [[ChatContext.hello; user_message "and the logout code";
      assistant_message "see b/Logout.jsx" ["b/Logout.jsx"]]; []] /\
  ChatContext.title
    <$> ChatContext.conversations (Some "proj")
          (handleSend_complete (Some "proj")
             (handleSend_store (Some "proj") "and the logout code"
                "1700000000009" "2024-01-09T00:00:00.000Z"
                (ChatContext.addMessage (Some "proj") ChatContext.hello None
                   ChatContext.sample_state)).1
             "see b/Logout.jsx" ["b/Logout.jsx"]
             (handleSend_store (Some "proj") "and the logout code"
                "1700000000009" "2024-01-09T00:00:00.000Z"
                (ChatContext.addMessage (Some "proj") ChatContext.hello None
                   ChatContext.sample_state)).2)
  = ["first"; "second"].
Proof.
  split; [reflexivity |].
  pose proof (follow_up_keeps_title "proj" "and the logout code"
                "1700000000009" "2024-01-09T00:00:00.000Z"
                "see b/Logout.jsx" ["b/Logout.jsx"]
                (ChatContext.addMessage (Some "proj") ChatContext.hello None
                   ChatContext.sample_state)
                "1700000000001"
                (ChatContext.with_message ChatContext.hello ChatContext.conv_a)
                eq_refl eq_refl ltac:(discriminate) eq_refl
                ltac:(discriminate)) as H.
  destruct (handleSend_store (Some "proj") _ _ _ _) as [convId st'].
  destruct H as (_ & Hlist & _). cbn [fst snd]. rewrite Hlist.
  split; vm_compute; reflexivity.
Defined.

End Client.

(** ** The question-answering service

    [api.py], [retriever.py], [reranker.py] and [generator.py] are named
    by the README and the technical note but are not part of the sources
    at hand; what follows renders their specification.  A Python [str] is
    a sequence of code points, modelled by [string] with one [ascii] per
    code point; scores are real numbers, rendered as rationals. *)

Module Backend.

Record chunk := {
  path : string;
  module_name : string;
  sub_module : string;
  content : string;
  embedding : list Q;
}.

Record candidate := {
  chunk_ref : chunk;
  vector_score : Q;
  bm25_score : Q;
  hybrid_score : Q;
}.

Inductive error :=
| InvalidSourceDirectory
| NoFilesEmbedded
| EmbeddingUnavailable
| ProjectNotIndexed
| GenerationFailed
| ConcurrentIndexConflict.

(** Modelled from the spec: the project registry of [project_manager.py]
    (absent).  A project has a status and at most one collection of
    chunks. *)
Record project := {
  status : Training.index_status;
  collection : option (list chunk);
}.

(** Modelled from the spec: a project is created idle and without a
    collection. *)
Definition new_project : project :=
  {| status := Training.Idle; collection := None |}.

(** The indexer lifecycle events that drive the status. *)
Inductive lifecycle_event :=
| IndexRequested
| IndexCompleted (chunks : list chunk)
| IndexFailed.

(** Modelled from the spec: the state machine of the Project Manager
    (absent): idle to indexing to indexed, indexing to error, indexed to
    indexing, error to indexing; the collection is replaced as a whole
    when a job completes; an index request on a project that is indexing
    is rejected. *)
Definition step (p : project) (ev : lifecycle_event) : project :=
  match status p, ev with
  | Training.Indexing, IndexCompleted chunks =>
      {| status := Training.Indexed; collection := Some chunks |}
  | Training.Indexing, IndexFailed =>
      {| status := Training.Error; collection := collection p |}
  | Training.Indexing, IndexRequested => p
  | _, IndexRequested =>
      {| status := Training.Indexing; collection := collection p |}
  | _, _ => p
  end.

Definition run (evs : list lifecycle_event) : project :=
  foldl step new_project evs.

Section Services.

(** The embedding service: [None] is [EmbeddingUnavailable]. *)
Variable embed : string -> option (list Q).

(** Cosine similarity of two vectors. *)
Variable similarity : list Q -> list Q -> Q.

(** Stable insertion into a list kept in descending order of [key]. *)
Fixpoint insert_desc {A} (lt : A -> A -> bool) (x : A) (l : list A) : list A :=
  match l with
  | [] => [x]
  | y :: rest => if lt x y then y :: insert_desc lt x rest else x :: l
  end.

Definition sort_desc {A} (lt : A -> A -> bool) (l : list A) : list A :=
  foldr (insert_desc lt) [] l.

Definition Qlt_bool (a b : Q) : bool := negb (Qle_bool b a).

(** Modelled from the spec: [query] of the Vector Store Adapter (absent):
    the chunks in descending order of similarity to the query vector,
    ties in insertion order, at most [topK] of them, each with its
    cosine similarity as [vector_score]. *)
Definition query (chunks : list chunk) (queryVector : list Q) (topK : nat)
  : list candidate :=
  take topK
    (sort_desc (fun a b => Qlt_bool (vector_score a) (vector_score b))
       ((fun c => {| chunk_ref := c;
                     vector_score := similarity (embedding c) queryVector;
                     bm25_score := 0; hybrid_score := 0 |}) <$> chunks)).

(** Modelled from the spec: [retrieve] of the Retriever (absent).  The
    result comes with the number of calls made to the embedding service:
    a missing collection is reported before the question is embedded. *)
Definition retrieve (p : project) (question : string) (topK : nat)
  : (error + list candidate) * nat :=
  match collection p with
  | None => (inl ProjectNotIndexed, 0)
  | Some chunks =>
      match embed question with
      | None => (inl EmbeddingUnavailable, 1)
      | Some v => (inr (query chunks v topK), 1)
      end
  end.

End Services.

Lemma run_snoc evs ev : run (evs ++ [ev]) = step (run evs) ev.
Proof. unfold run. by rewrite foldl_app. Qed.

(** A project that is idle was never indexed: it has no collection. *)
Lemma idle_has_no_collection evs :
  status (run evs) = Training.Idle -> collection (run evs) = None.
Proof.
  induction evs as [|ev evs IH] using rev_ind; [done |].
  rewrite run_snoc. unfold step.
  destruct (status (run evs)) eqn:Est, ev; simpl; try done; try apply IH.
  all: rewrite Est; done.
Qed.

(** *** Reranker *)

Section Reranker.

Local Open Scope Q_scope.

(** BM25 score of a chunk against a question, the candidate set being the
    reference corpus; it is 0 where BM25 cannot be computed. *)
Variable bm25 : list chunk -> string -> chunk -> Q.

(** The normalized score given to every candidate of a batch whose scores
    are all equal; the specification leaves it open. *)
Variable flat : Q.

Definition vector_weight : Q := 4 # 10.
Definition bm25_weight : Q := 6 # 10.

Definition minimum (xs : list Q) : Q := foldr Qmin (hd 0 xs) xs.
Definition maximum (xs : list Q) : Q := foldr Qmax (hd 0 xs) xs.

(** Modelled from the spec: min-max normalization of [reranker.py]
    (absent): the scores of a batch are mapped to [0,1] by
    [(x - min) / (max - min)]. *)
Definition normalize (xs : list Q) : list Q :=
  let lo := minimum xs in
  let hi := maximum xs in
  if Qeq_bool hi lo then (fun _ => flat) <$> xs
  else (fun x => (x - lo) / (hi - lo)) <$> xs.

(** Modelled from the spec: the hybrid score of [reranker.py] (absent). *)
Definition hybrid (normalized_vector normalized_bm25 : Q) : Q :=
  vector_weight * normalized_vector + bm25_weight * normalized_bm25.

Definition with_hybrid (c : candidate) (h : Q) : candidate :=
  {| chunk_ref := chunk_ref c; vector_score := vector_score c;
     bm25_score := bm25_score c; hybrid_score := h |}.

(** Modelled from the spec: steps 3 and 4 of the Reranker (absent): both
    scores are normalized within the batch, then combined. *)
Definition score_batch (cands : list candidate) : list candidate :=
  zip_with with_hybrid cands
    (zip_with hybrid (normalize (vector_score <$> cands))
                     (normalize (bm25_score <$> cands))).

(** Modelled from the spec: steps 1 and 2 of the Reranker (absent). *)
Definition with_bm25 (question : string) (cands : list candidate)
  : list candidate :=
  (fun c => {| chunk_ref := chunk_ref c; vector_score := vector_score c;
               bm25_score := bm25 (chunk_ref <$> cands) question (chunk_ref c);
               hybrid_score := hybrid_score c |}) <$> cands.

(** [a] ranks below [b]: lower hybrid score, or the same hybrid score and
    a lower vector score. *)
Definition ranks_below (a b : candidate) : bool :=
  Qlt_bool (hybrid_score a) (hybrid_score b)
  || (Qeq_bool (hybrid_score a) (hybrid_score b)
      && Qlt_bool (vector_score a) (vector_score b)).

(** Modelled from the spec: the Reranker (absent): score, sort in
    descending order of hybrid score, ties by descending vector score and
    then by retrieval order, keep the first [top_n]. *)
Definition rerank (question : string) (cands : list candidate) (top_n : nat)
  : list candidate :=
  take top_n (sort_desc ranks_below (score_batch (with_bm25 question cands))).

Lemma minimum_le xs x : x ∈ xs -> minimum xs <= x.
Proof.
  unfold minimum. generalize (hd 0 xs). intros d Hin.
  induction xs as [|y r IH]; [by apply elem_of_nil in Hin |].
  simpl. apply elem_of_cons in Hin as [-> | Hin].
  - apply Q.le_min_l.
  - eapply Qle_trans; [apply Q.le_min_r | by apply IH].
Qed.

Lemma le_maximum xs x : x ∈ xs -> x <= maximum xs.
Proof.
  unfold maximum. generalize (hd 0 xs). intros d Hin.
  induction xs as [|y r IH]; [by apply elem_of_nil in Hin |].
  simpl. apply elem_of_cons in Hin as [-> | Hin].
  - apply Q.le_max_l.
  - eapply Qle_trans; [by apply IH | apply Q.le_max_r].
Qed.

Lemma normalize_length xs : length (normalize xs) = length xs.
Proof. unfold normalize. destruct (Qeq_bool _ _); by rewrite length_fmap. Qed.

(** What [normalize] gives at a position: the min-max formula, or [flat]
    when the batch has one value only. *)
Lemma normalize_lookup xs i n :
  normalize xs !! i = Some n ->
  exists x, xs !! i = Some x /\
    ((maximum xs == minimum xs /\ n = flat) \/
     (~ maximum xs == minimum xs /\
      n = (x - minimum xs) / (maximum xs - minimum xs))).
Proof.
  unfold normalize. destruct (Qeq_bool _ _) eqn:E.
  - rewrite list_lookup_fmap. destruct (xs !! i) as [x|]; [| done].
    intros [= <-]. exists x. split; [done |]. left.
    split; [by apply Qeq_bool_iff | done].
  - rewrite list_lookup_fmap. destruct (xs !! i) as [x|]; [| done].
    intros [= <-]. exists x. split; [done |]. right.
    split; [| done]. intros H. apply Qeq_bool_iff in H. congruence.
Qed.

Hypothesis flat_unit : 0 <= flat <= 1.

Lemma normalize_unit xs i n : normalize xs !! i = Some n -> 0 <= n <= 1.
Proof.
  intros (x & Hx & [[_ ->] | [Hne ->]])%normalize_lookup; [done |].
  assert (Hin : x ∈ xs) by (apply list_elem_of_lookup; eauto).
  pose proof (minimum_le xs x Hin) as Hlo.
  pose proof (le_maximum xs x Hin) as Hhi.
  assert (Hpos : 0 < maximum xs - minimum xs) by lra.
  split.
  - apply Qle_shift_div_l; [done |]. lra.
  - apply Qle_shift_div_r; [done |]. lra.
Qed.

Lemma hybrid_scores_of_batch (cands : list candidate) (hs : list Q) :
  length hs = length cands ->
  hybrid_score <$> zip_with with_hybrid cands hs = hs.
Proof.
  revert hs. induction cands as [|c cands IH]; intros [|h hs] Hlen;
    simpl in *; try done.
  f_equal. apply IH. lia.
Qed.

Lemma score_batch_hybrid_scores cands :
  hybrid_score <$> score_batch cands =
    zip_with hybrid (normalize (vector_score <$> cands))
                    (normalize (bm25_score <$> cands)).
Proof.
  unfold score_batch. apply hybrid_scores_of_batch.
  rewrite length_zip_with, !normalize_length, !length_fmap. lia.
Qed.

(** The min-max formula at one position of a batch of scores. *)
Definition min_max_of (xs : list Q) (x n : Q) : Prop :=
  (maximum xs == minimum xs /\ n = flat) \/
  (~ maximum xs == minimum xs /\
   n = (x - minimum xs) / (maximum xs - minimum xs)).

(** C1.  In every batch each candidate keeps its chunk and its two scores
    and gets as hybrid score 0.4 times its normalized vector score plus
    0.6 times its normalized BM25 score, where a normalized score is the
    min-max normalization of the score within the batch and lies in
    [0,1]; the hybrid scores of a batch are determined by the vector and
    BM25 scores of the batch alone. *)
Theorem hybrid_score_formula cands :
  (forall i c,
     score_batch cands !! i = Some c ->
     exists c0 nv nb,
       cands !! i = Some c0 /\
       chunk_ref c = chunk_ref c0 /\
       vector_score c = vector_score c0 /\
       bm25_score c = bm25_score c0 /\
       min_max_of (vector_score <$> cands) (vector_score c0) nv /\
       min_max_of (bm25_score <$> cands) (bm25_score c0) nb /\
       0 <= nv <= 1 /\ 0 <= nb <= 1 /\
       hybrid_score c = (4 # 10) * nv + (6 # 10) * nb) /\
  (forall cands',
     vector_score <$> cands' = vector_score <$> cands ->
     bm25_score <$> cands' = bm25_score <$> cands ->
     hybrid_score <$> score_batch cands' = hybrid_score <$> score_batch cands).
Proof.
  split.
  - intros i c Hc. unfold score_batch in Hc.
    apply lookup_zip_with_Some in Hc as (c0 & h & -> & Hc0 & Hh).
    apply lookup_zip_with_Some in Hh as (nv & nb & -> & Hnv & Hnb).
    exists c0, nv, nb.
    pose proof (normalize_unit _ _ _ Hnv) as Huv.
    pose proof (normalize_unit _ _ _ Hnb) as Hub.
    apply normalize_lookup in Hnv as (v & Hv & Hfv).
    apply normalize_lookup in Hnb as (b & Hb & Hfb).
    rewrite list_lookup_fmap, Hc0 in Hv, Hb. simpl in Hv, Hb.
    injection Hv as <-. injection Hb as <-.
    repeat split; try done; tauto.
  - intros cands' Hv Hb. rewrite !score_batch_hybrid_scores. by rewrite Hv, Hb.
Qed.

End Reranker.

(** *** Generator *)

Section Generator.

(** The fixed texts of the prompt: the system instruction, the line that
    introduces the snippets, the line that closes them and the label put
    before the question. *)
Variables system_instruction snippets_intro snippets_end question_label : string.

Definition preview_length : nat := 1500.

Definition newline : string := String Js.nl "".

Definition decimal (n : nat) : string := NilEmpty.string_of_uint (Nat.to_uint n).

(** Modelled from the spec: the header of a snippet in [generator.py]
    (absent).  The technical note shows the same layout with the two
    labels written in Chinese. *)
Definition header (i : nat) (c : chunk) : string :=
  "--- file " +:+ decimal i +:+ ": " +:+ path c
    +:+ " (module: " +:+ module_name c +:+ ") ---".

(** Modelled from the spec: the content of a snippet, capped at the
    preview length. *)
Definition preview (c : chunk) : string :=
  Js.slice_to preview_length (content c).

(** Modelled from the spec: a snippet is its header, a line break, its
    preview and an empty line. *)
Definition render_chunk (i : nat) (c : chunk) : string :=
  header i c +:+ newline +:+ preview c +:+ newline +:+ newline.

(** The snippets numbered from [i]. *)
Fixpoint render_chunks (i : nat) (chunks : list chunk) : string :=
  match chunks with
  | [] => ""
  | c :: rest => render_chunk i c +:+ render_chunks (S i) rest
  end.

(** Modelled from the spec: the user message of the prompt of
    [generator.py] (absent): the snippets numbered from 1, then the
    question as it was asked. *)
Definition user_prompt (chunks : list chunk) (question : string) : string :=
  snippets_intro +:+ render_chunks 1 chunks
    +:+ snippets_end +:+ question_label +:+ question.

Definition messages (chunks : list chunk) (question : string)
  : list (string * string) :=
  [("system", system_instruction); ("user", user_prompt chunks question)].

Lemma render_chunks_lookup chunks i k c :
  chunks !! k = Some c ->
  render_chunks i chunks =
    render_chunks i (take k chunks)
      +:+ render_chunk (i + k) c
      +:+ render_chunks (S (i + k)) (drop (S k) chunks).
Proof.
  revert i k. induction chunks as [|c' chunks IH]; intros i k Hk; [done |].
  destruct k as [|k]; simpl in *.
  - injection Hk as ->. by rewrite Nat.add_0_r.
  - rewrite (IH (S i) k Hk), Js.app_assoc.
    by replace (S i + k) with (i + S k) by lia.
Qed.

(** C7.  Every chunk handed to the generator appears in the prompt,
    numbered from 1 in the order given, as the header
    [--- file i: path (module: module) ---] followed by its content cut
    to at most 1500 characters (the content itself when it is no longer
    than that); after the last chunk come the closing texts and then the
    question, unchanged, which ends the prompt. *)
Theorem prompt_layout chunks question :
  (forall k c,
     chunks !! k = Some c ->
     String.length (preview c) <= 1500 /\
     preview c = Js.slice_to 1500 (content c) /\
     (String.length (content c) <= 1500 -> preview c = content c) /\
     exists before after,
       user_prompt chunks question =
         before
         +:+ ("--- file " +:+ decimal (S k) +:+ ": " +:+ path c
                +:+ " (module: " +:+ module_name c +:+ ") ---")
         +:+ newline +:+ preview c +:+ newline +:+ newline
         +:+ after +:+ question) /\
  user_prompt chunks question =
    (snippets_intro +:+ render_chunks 1 chunks
       +:+ snippets_end +:+ question_label) +:+ question.
Proof.
  split.
  - intros k c Hk. split; [apply Js.slice_to_bound |]. split; [done |].
    split; [apply Js.slice_to_short |].
    exists (snippets_intro +:+ render_chunks 1 (take k chunks)),
           (render_chunks (S (S k)) (drop (S k) chunks)
              +:+ snippets_end +:+ question_label).
    unfold user_prompt. rewrite (render_chunks_lookup chunks 1 k c Hk).
    unfold render_chunk, header. simpl plus.
    by rewrite !Js.app_assoc.
  - unfold user_prompt. by rewrite !Js.app_assoc.
Qed.

End Generator.

(** *** The request handler *)

Section Pipeline.

Variable embed : string -> option (list Q).
Variable similarity : list Q -> list Q -> Q.
Variable bm25 : list chunk -> string -> chunk -> Q.
Variable flat : Q.

Definition rerank_top_n : nat := 8.

(** What the handler has in hand when it emits the [sources] event. *)
Record answer_plan := {
  retrieved : list candidate;
  reranked : list candidate;
}.

(** Modelled from the spec: the handler of [POST /ask/stream] in [api.py]
    (absent) up to the [sources] event: the Retriever is called with the
    [top_k] of the request and its candidates go to the Reranker.  The
    second component counts the calls to the embedding service. *)
Definition ask (p : project) (req : Client.ask_body)
  : (error + answer_plan) * nat :=
  match retrieve embed similarity p (Client.question req)
          (Z.to_nat (Client.top_k req)) with
  | (inl e, n) => (inl e, n)
  | (inr cands, n) =>
      (inr {| retrieved := cands;
              reranked := rerank bm25 flat (Client.question req) cands
                            rerank_top_n |}, n)
  end.

(** C5.  A request built by [askStream] without a retrieval breadth, as
    [sendMessage] builds it, carries [top_k] 50; on a project with a
    collection the retrieval then asks the store for the 50 most similar
    chunks, and the reranker receives exactly the candidates returned,
    at most 50 of them. *)
Theorem default_top_k_reaches_reranker pid q p chunks v :
  collection p = Some chunks ->
  embed q = Some v ->
  Client.top_k (Client.askStream pid q None) = 50%Z /\
  Client.sendMessage_request pid q = Client.askStream pid q None /\
  exists plan,
    (ask p (Client.askStream pid q None)).1 = inr plan /\
    retrieved plan = query similarity chunks v 50 /\
    length (retrieved plan) <= 50 /\
    reranked plan = rerank bm25 flat q (retrieved plan) rerank_top_n.
Proof.
  intros Hc He. split; [done |]. split; [done |].
  unfold ask, retrieve. simpl. rewrite Hc, He.
  eexists. split; [done |]. simpl. split; [done |]. split; [| done].
  unfold query. rewrite length_take. lia.
Qed.

(** C6.  The project selector lists indexed projects only; [handleSend]
    hands a request to [sendMessage] only when the selected project is in
    the list with status indexed, the request then being for that
    project, and the send button is disabled otherwise; and a question
    asked of a project whose status is idle fails with
    [ProjectNotIndexed] without any call to the embedding service. *)
Theorem questions_need_an_indexed_project :
  (forall projects value label,
     (value, label) ∈ Client.selector_options projects ->
     exists p, p ∈ projects /\ Training.id p = value /\
               Training.status p = Training.Indexed) /\
  (forall projects sel question input req,
     Client.handleSend projects sel question input = Some req ->
     Client.project_id req = sel /\
     exists p, Client.selectedProject projects sel = Some p /\
               Some (Training.id p) = sel /\
               Training.status p = Training.Indexed) /\
  (forall projects sel question input,
     Client.canSend projects sel = false ->
     Client.handleSend projects sel question input = None /\
     Client.send_disabled projects sel input = true) /\
  (forall evs req,
     status (run evs) = Training.Idle ->
     ask (run evs) req = (inl ProjectNotIndexed, 0)).
Proof.
  split; [| split; [| split]].
  - intros projects value label Hin. unfold Client.selector_options in Hin.
    apply list_elem_of_fmap in Hin as (p & Heq & Hp).
    apply Client.indexedProjects_indexed in Hp as [Hp Hst].
    exists p. injection Heq as -> _. done.
  - intros projects sel question input req Hreq.
    apply Client.handleSend_gate in Hreq as (Hcan & Hid & _).
    split; [done |]. by apply Client.canSend_indexed.
  - intros projects sel question input Hcan. split.
    + unfold Client.handleSend.
      destruct (Js.or_else question (Some input)); [| done].
      by rewrite Hcan, orb_true_r.
    + unfold Client.send_disabled. by rewrite Hcan.
  - intros evs req Hidle. unfold ask, retrieve.
    by rewrite (idle_has_no_collection evs Hidle).
Qed.

End Pipeline.

(** *** A sample project *)

Definition login_chunk : chunk :=
  {| path := "a/Login.jsx"; module_name := "a"; sub_module := "";
     content := "export function login handler() {}";
     embedding := [1%Q; 0%Q] |}.

Definition logout_chunk : chunk :=
  {| path := "b/Logout.jsx"; module_name := "b"; sub_module := "";
     content := "export function logout handler() {}";
     embedding := [0%Q; 1%Q] |}.

(** Inner product, which is the cosine similarity on unit vectors. *)
Fixpoint dot (u v : list Q) : Q :=
  match u, v with
  | x :: u', y :: v' => (x * y + dot u' v')%Q
  | _, _ => 0%Q
  end.

(** An embedding service that answers every text with one vector. *)
Definition sample_embed (text : string) : option (list Q) :=
  Some [(9 # 10)%Q; (1 # 10)%Q].

(** A lexical score that counts nothing but the word [login]. *)
Definition sample_bm25 (corpus : list chunk) (question : string) (c : chunk)
  : Q :=
  if String.eqb (path c) "a/Login.jsx" then 2%Q else 0%Q.

Definition sample_project : project :=
  run [IndexRequested; IndexCompleted [logout_chunk; login_chunk]].

Definition sample_batch : list candidate :=
  [ {| chunk_ref := logout_chunk; vector_score := 5 # 10;
       bm25_score := 0; hybrid_score := 0 |};
    {| chunk_ref := login_chunk; vector_score := 9 # 10;
       bm25_score := 2; hybrid_score := 0 |} ].

Lemma half_unit : (0 <= 1 # 2 <= 1)%Q.
Proof. split; discriminate. Qed.

Lemma hybrid_score_formula_witness :
  (0 <= 1 # 2 <= 1)%Q /\
  exists c nv nb,
    score_batch (1 # 2) sample_batch !! 1%nat = Some c /\
    chunk_ref c = login_chunk /\
    (0 <= nv <= 1)%Q /\ (0 <= nb <= 1)%Q /\
    hybrid_score c = ((4 # 10) * nv + (6 # 10) * nb)%Q.
Proof.
  split; [exact half_unit |].
  assert (Hc : exists c, score_batch (1 # 2) sample_batch !! 1%nat = Some c)
    by (eexists; vm_compute; reflexivity).
  destruct Hc as [c Hc].
  destruct (proj1 (hybrid_score_formula (1 # 2) half_unit sample_batch) 1%nat
              c Hc)
    as (c0 & nv & nb & Hc0 & Hr & _ & _ & _ & _ & Hnv & Hnb & Hh).
  exists c, nv, nb. injection Hc0 as <-. done.
Defined.

Lemma default_top_k_reaches_reranker_witness :
  collection sample_project = Some [logout_chunk; login_chunk] /\
  sample_embed "where is the login code" = Some [(9 # 10)%Q; (1 # 10)%Q] /\
  Client.top_k (Client.askStream (Some "p1") "where is the login code" None)
    = 50%Z /\
  exists plan,
    (ask sample_embed dot sample_bm25 (1 # 2) sample_project
       (Client.askStream (Some "p1") "where is the login code" None)).1
      = inr plan /\
    path <$> (chunk_ref <$> retrieved plan) = ["a/Login.jsx"; "b/Logout.jsx"].
Proof.
  split; [reflexivity |]. split; [reflexivity |].
  destruct (default_top_k_reaches_reranker sample_embed dot sample_bm25
              (1 # 2) (Some "p1") "where is the login code" sample_project
              [logout_chunk; login_chunk] [(9 # 10)%Q; (1 # 10)%Q] eq_refl eq_refl)
    as (Htop & _ & plan & Hplan & Hret & _).
  split; [exact Htop |]. exists plan. split; [exact Hplan |].
  rewrite Hret. vm_compute. reflexivity.
Defined.

Lemma questions_need_an_indexed_project_witness :
  status (run []) = Training.Idle /\
  ask sample_embed dot sample_bm25 (1 # 2) (run [])
    (Client.askStream (Some "p1") "where is the login code" None)
    = (inl ProjectNotIndexed, 0) /\
  Client.canSend Training.sample_projects (Some "p1") = false /\
  Client.handleSend Training.sample_projects (Some "p1") None
    "where is the login code" = None.
Proof.
  pose proof (questions_need_an_indexed_project sample_embed dot sample_bm25
                (1 # 2)) as (_ & _ & Hgate & Hidle).
  split; [reflexivity |]. split; [apply Hidle; reflexivity |].
  split; [reflexivity |].
  apply (Hgate Training.sample_projects (Some "p1") None
           "where is the login code" eq_refl).
Defined.

Lemma prompt_layout_witness :
  [logout_chunk; login_chunk] !! 1%nat = Some login_chunk /\
  String.length (preview login_chunk) <= 1500 /\
  exists before after,
    user_prompt "Relevant code:" "---" "Question: "
      [logout_chunk; login_chunk] "where is the login code" =
      before
      +:+ ("--- file 2: a/Login.jsx (module: a) ---")
      +:+ newline +:+ preview login_chunk +:+ newline +:+ newline
      +:+ after +:+ "where is the login code".
Proof.
  split; [reflexivity |].
  destruct (proj1 (prompt_layout "Relevant code:" "---" "Question: "
                     [logout_chunk; login_chunk] "where is the login code")
              1%nat login_chunk eq_refl)
    as (Hlen & _ & _ & before & after & Hp).
  split; [exact Hlen |]. exists before, after. exact Hp.
Defined.

End Backend.

(** ** contexts/ProjectContext.jsx: loading the list *)

Module ProjectContext.








End ProjectContext.

(** ** pages/TrainingPage.jsx: the lists of the project form *)

Module TrainingForm.

(** The code units below 256 that [String.prototype.trim] removes: tab,
    line feed, vertical tab, form feed, carriage return, space and
    no-break space. *)
Definition is_space (c : ascii) : bool :=
  let n := nat_of_ascii c in
  (n =? 9)%nat || (n =? 10)%nat || (n =? 11)%nat || (n =? 12)%nat
  || (n =? 13)%nat || (n =? 32)%nat || (n =? 160)%nat.

Fixpoint trimStart (s : string) : string :=
  match s with
  | EmptyString => EmptyString
  | String c r => if is_space c then trimStart r else s
  end.

Fixpoint trimEnd (s : string) : string :=
  match s with
  | EmptyString => EmptyString
  | String c r =>
      match trimEnd r with
      | EmptyString => if is_space c then EmptyString else String c EmptyString
      | r' => String c r'
      end
  end.

(** [s.trim()]. *)
Definition trim (s : string) : string := trimEnd (trimStart s).

Definition comma : ascii := ascii_of_nat 44.

(** [s.split(',')]. *)
Fixpoint split_comma (s : string) : list string :=
  match s with
  | EmptyString => [EmptyString]
  | String c r =>
      if Ascii.eqb c comma then EmptyString :: split_comma r
      else match split_comma r with
           | h :: t => String c h :: t
           | [] => [String c EmptyString]
           end
  end.

(** [filter(Boolean)] on strings keeps the non-empty ones. *)
Definition non_empty (s : string) : bool := negb (String.eqb s EmptyString).

(** [text.split(',').map(s => s.trim()).filter(Boolean)], as
    [handleSubmit] reads [extensions] and [ignoreDirs]. *)
Definition parse_list (text : string) : list string :=
  List.filter non_empty (trim <$> split_comma text).

(** [list.join(', ')], as [ProjectCard] shows the two lists. *)
Definition show_list (l : list string) : string := String.concat ", " l.

(** The string holds a comma. *)
Fixpoint has_comma (s : string) : bool :=
  match s with
  | EmptyString => false
  | String c r => Ascii.eqb c comma || has_comma r
  end.

(** An entry as [parse_list] yields them. *)
Definition clean (s : string) : Prop :=
  s ≠ "" /\ trim s = s /\ has_comma s = false.

Lemma split_comma_nonempty s : split_comma s ≠ [].
Proof.
  destruct s as [|c r]; simpl; [done |].
  destruct (Ascii.eqb c comma); [done |].
  by destruct (split_comma r).
Qed.

Lemma split_comma_pieces s h : h ∈ split_comma s -> has_comma h = false.
Proof.
  revert h. induction s as [|c r IH]; intros h; simpl.
  - by intros ->%list_elem_of_singleton.
  - pose proof (split_comma_nonempty r) as Hne.
    destruct (Ascii.eqb c comma) eqn:Ec.
    + intros [-> | Hin]%elem_of_cons; [done | by apply IH].
    + destruct (split_comma r) as [|x t] eqn:Er; [done |].
      intros [-> | Hin]%elem_of_cons.
      * simpl. rewrite Ec. apply IH. by left.
      * apply IH. by right.
Qed.

Lemma has_comma_trimStart s : has_comma s = false -> has_comma (trimStart s) = false.
Proof.
  induction s as [|c r IH]; [done |]. simpl.
  intros [Hc Hr]%orb_false_iff.
  destruct (is_space c); [by apply IH |]. simpl. by rewrite Hc, Hr.
Qed.

Lemma has_comma_trimEnd s : has_comma s = false -> has_comma (trimEnd s) = false.
Proof.
  induction s as [|c r IH]; [done |]. simpl.
  intros [Hc Hr]%orb_false_iff. specialize (IH Hr).
  destruct (trimEnd r) as [|c' r'].
  - destruct (is_space c); [done |]. simpl. by rewrite Hc.
  - simpl in *. by rewrite Hc, IH.
Qed.

Lemma trimEnd_idem s : trimEnd (trimEnd s) = trimEnd s.
Proof.
  induction s as [|c r IH]; [done |]. simpl.
  destruct (trimEnd r) as [|c' r'] eqn:Er.
  - destruct (is_space c) eqn:Ec; [done |]. simpl. by rewrite Ec.
  - change (trimEnd (String c (String c' r')) = String c (String c' r')).
    simpl. simpl in IH. by rewrite IH.
Qed.

Lemma trimStart_head s :
  trimStart s = "" \/
  exists c r, trimStart s = String c r /\ is_space c = false.
Proof.
  induction s as [|c r IH]; [by left |]. simpl.
  destruct (is_space c) eqn:Ec; [done |]. right. eauto.
Qed.

Lemma trimEnd_head c r :
  is_space c = false -> exists r', trimEnd (String c r) = String c r'.
Proof.
  intros Hc. simpl. destruct (trimEnd r); [rewrite Hc |]; eauto.
Qed.

Lemma trim_idem s : trim (trim s) = trim s.
Proof.
  unfold trim. destruct (trimStart_head s) as [-> | (c & r & -> & Hc)];
    [done |].
  destruct (trimEnd_head c r Hc) as [r' Hr']. rewrite Hr' at 1.
  simpl trimStart. rewrite Hc, <- Hr'. apply trimEnd_idem.
Qed.

Lemma non_empty_true s : non_empty s = true <-> s ≠ "".
Proof.
  unfold non_empty. rewrite negb_true_iff. apply String.eqb_neq.
Qed.

Lemma parse_list_clean text : Forall clean (parse_list text).
Proof.
  apply Forall_forall. intros x Hx.
  unfold parse_list in Hx. apply list_elem_of_In, filter_In in Hx as [Hin Hne].
  apply list_elem_of_In, list_elem_of_fmap in Hin as (piece & -> & Hpiece).
  split; [by apply non_empty_true |]. split; [apply trim_idem |].
  unfold trim. apply has_comma_trimEnd, has_comma_trimStart.
  by apply split_comma_pieces in Hpiece.
Qed.

(** X22.  Every entry the form reads off a comma-separated field is
    non-empty, has no white space at either end and holds no comma:
    empty pieces and pieces of white space only are dropped, and trimming
    an entry again changes nothing. *)
Theorem parse_list_entries text :
  forall x, x ∈ parse_list text ->
    x ≠ "" /\ trim x = x /\ has_comma x = false.
Proof.
  intros x Hx. pose proof (parse_list_clean text) as H.
  rewrite Forall_forall in H. by apply H.
Qed.

Lemma parse_list_entries_witness :
  ".jsx" ∈ parse_list " .js ,, .jsx,  ,.ts," /\
  trim ".jsx" = ".jsx" /\ has_comma ".jsx" = false.
Proof.
  assert (Hin : ".jsx" ∈ parse_list " .js ,, .jsx,  ,.ts,").
  { vm_compute. apply list_elem_of_further, list_elem_of_here. }
  split; [exact Hin |].
  exact (proj2 (parse_list_entries " .js ,, .jsx,  ,.ts," ".jsx" Hin)).
Defined.

Lemma split_comma_join x rest :
  has_comma x = false ->
  split_comma (x +:+ String comma rest) = x :: split_comma rest.
Proof.
  induction x as [|c r IH]; intros Hx.
  - change ("" +:+ String comma rest) with (String comma rest). done.
  - simpl in Hx. apply orb_false_iff in Hx as [Hc Hr].
    rewrite Js.app_cons. simpl. by rewrite Hc, IH.
Qed.

Lemma split_comma_whole x : has_comma x = false -> split_comma x = [x].
Proof.
  induction x as [|c r IH]; intros Hx; [done |].
  simpl in Hx. apply orb_false_iff in Hx as [Hc Hr].
  simpl. by rewrite Hc, IH.
Qed.

Lemma has_comma_app a b :
  has_comma (a +:+ b) = has_comma a || has_comma b.
Proof.
  induction a as [|c r IH]; [done |].
  rewrite Js.app_cons. simpl. by rewrite IH, orb_assoc.
Qed.

(** A piece as [show_list] writes it: the entry, after a space or not. *)
Lemma trim_padded (pad x : string) :
  pad = "" \/ pad = " " -> trim x = x -> trim (pad +:+ x) = x.
Proof. by intros [-> | ->] Hx. Qed.

Lemma trim_split_show pad l :
  pad = "" \/ pad = " " ->
  l ≠ [] -> Forall clean l ->
  trim <$> split_comma (pad +:+ show_list l) = l.
Proof.
  intros Hpad Hne Hl. revert pad Hpad.
  induction l as [|x l IH]; intros pad Hpad; [done |].
  apply Forall_cons in Hl as [(Hx & Htrim & Hcomma) Hl].
  assert (Hpx : has_comma (pad +:+ x) = false).
  { rewrite has_comma_app, Hcomma. by destruct Hpad as [-> | ->]. }
  destruct l as [|y l].
  - change (show_list [x]) with x.
    rewrite split_comma_whole by done. simpl. by rewrite trim_padded.
  - change (show_list (x :: y :: l))
      with (x +:+ String comma (" " +:+ show_list (y :: l))).
    rewrite <- Js.app_assoc, split_comma_join by done.
    rewrite fmap_cons, trim_padded by done.
    f_equal. apply IH; [done | done | by right].
Qed.

Lemma filter_clean l : Forall clean l -> List.filter non_empty l = l.
Proof.
  induction l as [|y l IH]; intros Hl; [done |].
  apply Forall_cons in Hl as [(Hy & _) Hl].
  simpl. apply non_empty_true in Hy. by rewrite Hy, IH.
Qed.

(** X23.  Reading back what the card shows gives the list shown: for a
    list of entries that are non-empty, trimmed and free of commas,
    [parse_list (show_list l)] is [l]; so showing and reading again what
    the form has read changes nothing. *)
Theorem parse_show_round_trip :
  (forall l, Forall clean l -> parse_list (show_list l) = l) /\
  (forall text, parse_list (show_list (parse_list text)) = parse_list text).
Proof.
  assert (Hround : forall l, Forall clean l -> parse_list (show_list l) = l).
  { intros l Hl. destruct l as [|x l]; [done |].
    unfold parse_list.
    change (show_list (x :: l)) with ("" +:+ show_list (x :: l)).
    rewrite trim_split_show by (done || by left).
    by apply filter_clean. }
  split; [exact Hround |].
  intros text. apply Hround. apply parse_list_clean.
Qed.

Lemma parse_show_round_trip_witness :
  Forall clean [".js"; ".jsx"; ".ts"] /\
  show_list [".js"; ".jsx"; ".ts"] = ".js, .jsx, .ts" /\
  parse_list ".js, .jsx, .ts" = [".js"; ".jsx"; ".ts"] /\
  parse_list " .js ,, .jsx,  ,.ts," = [".js"; ".jsx"; ".ts"].
Proof.
  assert (Hclean : Forall clean [".js"; ".jsx"; ".ts"]).
  { repeat apply Forall_cons_2; [| | | constructor];
      (split; [discriminate | split; reflexivity]). }
  split; [exact Hclean |]. split; [reflexivity |]. split.
  - exact (proj1 parse_show_round_trip [".js"; ".jsx"; ".ts"] Hclean).
  - reflexivity.
Defined.

End TrainingForm.
